(** * arena.h: a growable bump allocator over a chain of blocks

    Shallow embedding of [src/arena.h] (the revision with pluggable
    [mem_alloc]/[mem_free] procedures) and the properties its specification
    states about it.

    Conventions of the embedding
    - [size_t] and [uintptr_t] are 64-bit unsigned words: a [Z] in
      [0, 2^64), every C operation that can wrap is written with [wadd],
      [wsub];
    - a pointer is its address, [NULL] is [0];
    - the chain reachable from [head] through [next] is a list of blocks,
      newest block first; a null [head] is the empty list and a block's
      [next] is the tail that follows it;
    - the backing memory provider is a state [Mem] threaded through the
      calls of [mem_alloc] and [mem_free];
    - what C leaves undefined (null dereference, division by zero,
      a floating value out of the range of [size_t]) is the result
      [Undefined]; the self-recursion of [arena_alloc_raw] is bounded by a
      fuel and reports [OutOfFuel] when the bound is reached. *)

From Stdlib Require Import ZArith List Bool Lia Znumtheory Permutation.
From Stdlib Require Import Floats.SpecFloat.
From Stdlib Require String.
Import String.StringSyntax.
Import ListNotations.
Local Open Scope Z_scope.

(** ** Machine words *)

Definition word_bits : Z := 64.
Definition word_modulus : Z := 2 ^ word_bits.

Definition wrap (x : Z) : Z := x mod word_modulus.
Definition wadd (x y : Z) : Z := wrap (x + y).
Definition wsub (x y : Z) : Z := wrap (x - y).

Definition NULL : Z := 0.

(** ** Outcomes of a call *)

Inductive result (A : Type) : Type :=
| Ok (a : A)
| Undefined
| OutOfFuel.
Arguments Ok {A} a.
Arguments Undefined {A}.
Arguments OutOfFuel {A}.

Definition bind {A B : Type} (r : result A) (k : A -> result B) : result B :=
  match r with
  | Ok a => k a
  | Undefined => Undefined
  | OutOfFuel => OutOfFuel
  end.

Notation "x <- c ;; k" := (bind c (fun x => k))
  (at level 61, c at next level, right associativity).
Notation "' pat <- c ;; k" := (bind c (fun x => match x with pat => k end))
  (at level 61, pat pattern, c at next level, right associativity).

(** ** [ARENA_GROW_FACTOR] and the conversions around it

    [new_cap * ARENA_GROW_FACTOR] converts [new_cap] to [double], multiplies
    in binary64 and converts the product back to [size_t] (the parameter
    type of [arena_push_block]) by truncation. *)

Definition prec : Z := 53.
Definition emax : Z := 1024.

(** The binary64 number nearest to the literal [1.15]. *)
Definition ARENA_GROW_FACTOR : spec_float :=
  S754_finite false 5179139571476070 (-52).

Definition size_t_to_double (n : Z) : spec_float :=
  binary_normalize prec emax n 0 false.

Definition double_to_size_t (f : spec_float) : result Z :=
  match f with
  | S754_zero _ => Ok 0
  | S754_finite s m e =>
      let t := if 0 <=? e then Zpos m * 2 ^ e else Zpos m / 2 ^ (- e) in
      if s then (if t =? 0 then Ok 0 else Undefined)
      else if t <? word_modulus then Ok t else Undefined
  | S754_infinity _ | S754_nan => Undefined
  end.

Definition arena_grow_capacity (new_cap : Z) : result Z :=
  double_to_size_t (SFmul prec emax (size_t_to_double new_cap) ARENA_GROW_FACTOR).

(** ** Blocks *)

(** [struct ArenaBlock]; [addr] is the address of the record itself (the
    value of the pointer that [mem_alloc] returned for it), [next] is the
    rest of the list the block is stored in. *)
Record ArenaBlock : Type := mkBlock {
  addr : Z;
  data : Z;
  offset : Z;
  capacity : Z
}.

Definition sizeof_ArenaBlock : Z := 32.

Definition set_offset (blk : ArenaBlock) (o : Z) : ArenaBlock :=
  {| addr := addr blk; data := data blk; offset := o; capacity := capacity blk |}.

Definition align_forward_ptr (p a : Z) : result Z :=
  if a =? 0 then Undefined
  else
    let mod_ := p mod a in
    Ok (if mod_ >? 0 then wadd p (wsub a mod_) else p).

Definition align_forward_size (p a : Z) : result Z :=
  if a =? 0 then Undefined
  else
    let mod_ := p mod a in
    Ok (if mod_ >? 0 then wadd p (wsub a mod_) else p).

Definition arena_block_get_required (cur nbytes alignment : Z) : result Z :=
  aligned <- align_forward_ptr cur alignment ;;
  let padding := wsub aligned cur in
  let required := wadd padding nbytes in
  Ok required.

(** Returns the pointer and the block as the call leaves it. *)
Definition arena_block_alloc_raw (blk : ArenaBlock) (nbytes alignment : Z)
  : result (Z * ArenaBlock) :=
  let base := data blk in
  let cur := wadd base (offset blk) in
  let available := wsub (capacity blk) (wsub cur base) in
  required <- arena_block_get_required cur nbytes alignment ;;
  if required >? available then Ok (NULL, blk)
  else
    let blk' := set_offset blk (wadd (offset blk) required) in
    Ok (wadd (data blk') (wsub (offset blk') nbytes), blk').

(** The [while(blk != NULL)] loop of [arena_alloc_raw]: the pointer found
    (or [NULL]) and the chain as the loop leaves it. *)
Fixpoint arena_alloc_search (chain : list ArenaBlock) (nbytes alignment : Z)
  : result (Z * list ArenaBlock) :=
  match chain with
  | [] => Ok (NULL, [])
  | blk :: next =>
      '(p, blk') <- arena_block_alloc_raw blk nbytes alignment ;;
      if negb (p =? NULL) then Ok (p, blk' :: next)
      else
        '(q, next') <- arena_alloc_search next nbytes alignment ;;
        Ok (q, blk' :: next')
  end.

(** ** The arena, over a memory provider with state [Mem] *)

Section Arena.

Variable Mem : Type.

(** The C library's [malloc] and [free]. *)
Variable malloc : Z -> Mem -> Z * Mem.
Variable free : Z -> Mem -> Mem.

(** The procedure types: a context pointer (always [NULL] here), then the
    size to reserve or the pointer to release. *)
Definition ArenaMemAllocProc : Type := Z -> Z -> Mem -> Z * Mem.
Definition ArenaMemFreeProc : Type := Z -> Z -> Mem -> Mem.

Definition arena_default_mem_alloc : ArenaMemAllocProc :=
  fun _ n m => malloc n m.

Definition arena_default_mem_free : ArenaMemFreeProc :=
  fun _ p m => free p m.

Record ArenaAllocator : Type := mkArena {
  mem_alloc : ArenaMemAllocProc;
  mem_free : ArenaMemFreeProc;
  head : list ArenaBlock
}.

Definition set_head (ar : ArenaAllocator) (chain : list ArenaBlock) : ArenaAllocator :=
  {| mem_alloc := mem_alloc ar; mem_free := mem_free ar; head := chain |}.

(** [None] is the null pointer; a created block has a null [next]. *)
Definition arena_block_create (ar : ArenaAllocator) (cap : Z) (m : Mem)
  : option ArenaBlock * Mem :=
  let '(blk, m1) := mem_alloc ar NULL sizeof_ArenaBlock m in
  if blk =? NULL then (None, m1)
  else
    let '(d, m2) := mem_alloc ar NULL cap m1 in
    if d =? NULL then (None, mem_free ar NULL blk m2)
    else (Some {| addr := blk; data := d; offset := 0; capacity := cap |}, m2).

Definition arena_create (mem_alloc_proc : option ArenaMemAllocProc)
    (mem_free_proc : option ArenaMemFreeProc) (cap : Z) (m : Mem)
  : ArenaAllocator * Mem :=
  let alloc_proc :=
    match mem_alloc_proc with None => arena_default_mem_alloc | Some f => f end in
  let free_proc :=
    match mem_free_proc with None => arena_default_mem_free | Some f => f end in
  let ar := {| mem_alloc := alloc_proc; mem_free := free_proc; head := [] |} in
  let '(blk, m') := arena_block_create ar cap m in
  (set_head ar (match blk with None => [] | Some b => [b] end), m').

Definition arena_push_block (ar : ArenaAllocator) (cap : Z) (m : Mem)
  : bool * ArenaAllocator * Mem :=
  match arena_block_create ar cap m with
  | (None, m') => (false, ar, m')
  | (Some blk, m') => (true, set_head ar (blk :: head ar), m')
  end.

(** [fuel] bounds the depth of the self-recursion after a block was pushed. *)
Fixpoint arena_alloc_raw (fuel : nat) (ar : ArenaAllocator) (nbytes alignment : Z)
    (m : Mem) {struct fuel} : result (Z * ArenaAllocator * Mem) :=
  if nbytes =? 0 then Ok (NULL, ar, m)
  else
    '(p, chain) <- arena_alloc_search (head ar) nbytes alignment ;;
    let ar := set_head ar chain in
    if negb (p =? NULL) then Ok (p, ar, m)
    else
      new_cap <- align_forward_size nbytes alignment ;;
      grown <- arena_grow_capacity new_cap ;;
      let '(ok, ar, m) := arena_push_block ar grown m in
      if ok then
        match fuel with
        | O => OutOfFuel
        | S fuel' => arena_alloc_raw fuel' ar nbytes alignment m
        end
      else Ok (NULL, ar, m).

(** [cur] is the block under the cursor, [next] what follows it. *)
Fixpoint arena_reset_from (cur : ArenaBlock) (next : list ArenaBlock)
  : list ArenaBlock :=
  match next with
  | [] => [set_offset cur 0]
  | nxt :: rest => set_offset cur 0 :: arena_reset_from nxt rest
  end.

Definition arena_reset (ar : ArenaAllocator) : result ArenaAllocator :=
  match head ar with
  | [] => Undefined
  | cur :: next => Ok (set_head ar (arena_reset_from cur next))
  end.

Definition arena_block_destroy (ar : ArenaAllocator) (b : ArenaBlock) (m : Mem) : Mem :=
  mem_free ar NULL (addr b) (mem_free ar NULL (data b) m).

Fixpoint arena_destroy_from (ar : ArenaAllocator) (cur : ArenaBlock)
    (next : list ArenaBlock) (m : Mem) : Mem :=
  match next with
  | [] => arena_block_destroy ar cur m
  | nxt :: rest => arena_destroy_from ar nxt rest (arena_block_destroy ar cur m)
  end.

Definition arena_destroy (ar : ArenaAllocator) (m : Mem)
  : result (ArenaAllocator * Mem) :=
  match head ar with
  | [] => Undefined
  | cur :: next => Ok (set_head ar [], arena_destroy_from ar cur next m)
  end.

Fixpoint arena_block_count_from (blk : list ArenaBlock) (total : Z) : Z :=
  match blk with
  | [] => total
  | _ :: next => arena_block_count_from next (wadd total 1)
  end.

Definition arena_block_count (ar : ArenaAllocator) : Z :=
  arena_block_count_from (head ar) 0.

Fixpoint arena_total_capacity_from (blk : list ArenaBlock) (total : Z) : Z :=
  match blk with
  | [] => total
  | b :: next => arena_total_capacity_from next (wadd total (capacity b))
  end.

Definition arena_total_capacity (ar : ArenaAllocator) : Z :=
  arena_total_capacity_from (head ar) 0.

End Arena.

Arguments mkArena {Mem}.
Arguments mem_alloc {Mem}.
Arguments mem_free {Mem}.
Arguments head {Mem}.
Arguments set_head {Mem}.
Arguments arena_block_create {Mem}.
Arguments arena_create {Mem}.
Arguments arena_push_block {Mem}.
Arguments arena_alloc_raw {Mem}.
Arguments arena_reset {Mem}.
Arguments arena_block_destroy {Mem}.
Arguments arena_destroy_from {Mem}.
Arguments arena_destroy {Mem}.
Arguments arena_block_count {Mem}.
Arguments arena_total_capacity {Mem}.

(** ** A memory provider for examples: a fixed pool

    The pool hands out consecutive addresses rounded up to 16 bytes, as a
    general-purpose [malloc] does, and returns [NULL] once the request does
    not fit below [pool_limit].  Nothing is reused after [pool_free]. *)

Record Pool : Type := mkPool { pool_next : Z; pool_limit : Z }.

Definition pool_alloc : ArenaMemAllocProc Pool :=
  fun _ n m =>
    if pool_next m + n <=? pool_limit m
    then (pool_next m,
          {| pool_next := 16 * ((pool_next m + Z.max n 1 + 15) / 16);
             pool_limit := pool_limit m |})
    else (NULL, m).

Definition pool_free : ArenaMemFreeProc Pool := fun _ _ m => m.

(** [arena_create(pool_alloc, pool_free, cap)]; the pool also stands for
    [malloc] and [free], which this call does not reach. *)
Definition pool_create (cap : Z) (m : Pool) : ArenaAllocator Pool * Pool :=
  arena_create (pool_alloc NULL) (pool_free NULL)
    (Some pool_alloc) (Some pool_free) cap m.


(** ** Notions used by the statements *)

(** Alignments are powers of two that fit a word. *)
Definition is_pow2 (a : Z) : Prop := exists k, 0 <= k < word_bits /\ a = 2 ^ k.

(** A block over a real buffer: a non-null buffer that ends inside the
    address space, with the cursor inside the buffer. *)
Definition block_wf (b : ArenaBlock) : Prop :=
  0 < data b /\ 0 <= offset b <= capacity b /\ data b + capacity b < word_modulus.

(** The distance from a block's cursor to the next multiple of [alignment],
    the address found there, and whether a request fits what is left. *)
Definition padding_of (b : ArenaBlock) (alignment : Z) : Z :=
  (- (data b + offset b)) mod alignment.

Definition aligned_cursor (b : ArenaBlock) (alignment : Z) : Z :=
  data b + offset b + padding_of b alignment.

Definition block_fits (b : ArenaBlock) (nbytes alignment : Z) : Prop :=
  padding_of b alignment + nbytes <= capacity b - offset b.

Definition block_commit (b : ArenaBlock) (nbytes alignment : Z) : ArenaBlock :=
  set_offset b (offset b + padding_of b alignment + nbytes).

(** The reservation of a block of [cap] bytes fails: [mem_alloc] returns
    [NULL] for the record, or for the buffer. *)
Definition reserve_fails {Mem : Type} (ar : ArenaAllocator Mem) (cap : Z) (m : Mem) : Prop :=
  fst (mem_alloc ar NULL sizeof_ArenaBlock m) = NULL \/
  fst (mem_alloc ar NULL cap (snd (mem_alloc ar NULL sizeof_ArenaBlock m))) = NULL.

(** Byte regions [start, start + size). *)
Definition region : Type := (Z * Z)%type.

Definition regions_disjoint (r s : region) : Prop :=
  fst r + snd r <= fst s \/ fst s + snd s <= fst r.

Definition region_within (r s : region) : Prop :=
  fst s <= fst r /\ fst r + snd r <= fst s + snd s.

Definition pairwise_disjoint (rs : list region) : Prop :=
  ForallOrdPairs regions_disjoint rs.

Definition buffer (b : ArenaBlock) : region := (data b, capacity b).

Definition free_part (b : ArenaBlock) : region :=
  (data b + offset b, capacity b - offset b).

(** The buffers of a chain are real and separate: what a sound memory
    provider hands out. *)
Definition buffers_ok (bs : list region) : Prop :=
  Forall (fun r => 0 < fst r /\ 0 <= snd r /\ fst r + snd r < word_modulus) bs /\
  pairwise_disjoint bs.

Definition chain_buffers_ok (chain : list ArenaBlock) : Prop :=
  buffers_ok (map buffer chain).

(** The cursor of every block is inside its buffer. *)
Definition offsets_ok (chain : list ArenaBlock) : Prop :=
  Forall (fun b => 0 <= offset b <= capacity b) chain.

(** The cursor of a block is inside its buffer, whose size is a word. *)
Definition cursor_ok (b : ArenaBlock) : Prop :=
  0 <= offset b <= capacity b /\ capacity b < word_modulus.

(** A request the byte arithmetic can hold. *)
Definition request_ok (req : Z * Z) : Prop :=
  0 <= fst req /\ 0 < snd req /\ fst req + snd req <= word_modulus.

(** Every region of [rs] lies in the buffer of some block of the chain and
    away from what is still free in every block. *)
Definition live_ok (chain : list ArenaBlock) (rs : list region) : Prop :=
  Forall (fun r =>
            (exists b, In b chain /\ region_within r (buffer b)) /\
            Forall (fun b => regions_disjoint r (free_part b)) chain) rs.

(** A sequence of calls [arena_alloc_raw ar nbytes alignment], one per
    request, with the regions of the calls that returned a non-null
    pointer, in call order. *)
Fixpoint arena_alloc_all {Mem : Type} (fuel : nat) (ar : ArenaAllocator Mem)
    (reqs : list (Z * Z)) (m : Mem) : result (list region * ArenaAllocator Mem * Mem) :=
  match reqs with
  | [] => Ok ([], ar, m)
  | (nbytes, alignment) :: rest =>
      '(p, ar1, m1) <- arena_alloc_raw fuel ar nbytes alignment m ;;
      '(rs, ar2, m2) <- arena_alloc_all fuel ar1 rest m1 ;;
      Ok (if p =? NULL then rs else (p, nbytes) :: rs, ar2, m2)
  end.

(** ** Concrete arenas over the pool *)

Definition pool0 : Pool := {| pool_next := 4096; pool_limit := 1000000 |}.

(** [arena_create(pool_alloc, pool_free, 200)], then one byte allocated. *)
Definition used_arena : ArenaAllocator Pool :=
  {| mem_alloc := pool_alloc; mem_free := pool_free;
     head := [{| addr := 4096; data := 4128; offset := 1; capacity := 200 |}] |}.

Definition used_pool : Pool := {| pool_next := 4336; pool_limit := 1000000 |}.

(** [arena_create(pool_alloc, pool_free, 8)]. *)
Definition small_arena : ArenaAllocator Pool :=
  {| mem_alloc := pool_alloc; mem_free := pool_free;
     head := [{| addr := 4096; data := 4128; offset := 0; capacity := 8 |}] |}.

Definition small_pool (limit : Z) : Pool := {| pool_next := 4144; pool_limit := limit |}.

(** The arena of [test.c] before its [arena_reset]: both blocks full. *)
Definition full_arena : ArenaAllocator Pool :=
  {| mem_alloc := pool_alloc; mem_free := pool_free;
     head := [{| addr := 4336; data := 4368; offset := 4; capacity := 4 |};
              {| addr := 4096; data := 4128; offset := 200; capacity := 200 |}] |}.

(** The arena of [test.c] after its [arena_reset]: a block of 4 bytes added
    in front of the first block of 200 bytes, both empty. *)
Definition test_arena : ArenaAllocator Pool :=
  {| mem_alloc := pool_alloc; mem_free := pool_free;
     head := [{| addr := 4336; data := 4368; offset := 0; capacity := 4 |};
              {| addr := 4096; data := 4128; offset := 0; capacity := 200 |}] |}.

Definition test_pool : Pool := {| pool_next := 4384; pool_limit := 1000000 |}.

(** ** States reached by the operations

    [arena_reaches s0 s]: the arena and the memory provider are in state
    [s] after some sequence of [arena_alloc_raw], [arena_reset] and
    [arena_push_block] calls that started in [s0]. *)

Inductive arena_reaches {Mem : Type} (s0 : ArenaAllocator Mem * Mem)
  : ArenaAllocator Mem * Mem -> Prop :=
| reaches_start : arena_reaches s0 s0
| reaches_alloc (ar : ArenaAllocator Mem) (m : Mem) (fuel : nat) (nbytes alignment : Z)
    (p : Z) (ar' : ArenaAllocator Mem) (m' : Mem) :
    arena_reaches s0 (ar, m) ->
    arena_alloc_raw fuel ar nbytes alignment m = Ok (p, ar', m') ->
    arena_reaches s0 (ar', m')
| reaches_reset (ar : ArenaAllocator Mem) (m : Mem) (ar' : ArenaAllocator Mem) :
    arena_reaches s0 (ar, m) ->
    arena_reset ar = Ok ar' ->
    arena_reaches s0 (ar', m)
| reaches_push (ar : ArenaAllocator Mem) (m : Mem) (cap : Z) (ok : bool)
    (ar' : ArenaAllocator Mem) (m' : Mem) :
    arena_reaches s0 (ar, m) ->
    0 <= cap < word_modulus ->
    arena_push_block ar cap m = (ok, ar', m') ->
    arena_reaches s0 (ar', m').

(** What holds of every block the code links into a chain. *)
Definition block_valid (b : ArenaBlock) : Prop :=
  addr b <> NULL /\ data b <> NULL /\ cursor_ok b.

(** A block of the chain before a call and the same block after it. *)
Definition block_advanced (b b' : ArenaBlock) : Prop :=
  addr b' = addr b /\ data b' = data b /\ capacity b' = capacity b /\
  offset b <= offset b'.

(** ** A provider that keeps track of what it handed out

    [live] holds the pointers handed out and not yet released, [stray] the
    pointers released while they were not live. *)

Record Traced (Mem : Type) : Type := mkTraced {
  inner : Mem;
  live : list Z;
  stray : list Z
}.
Arguments mkTraced {Mem}.
Arguments inner {Mem}.
Arguments live {Mem}.
Arguments stray {Mem}.

Fixpoint remove_first (p : Z) (l : list Z) : option (list Z) :=
  match l with
  | [] => None
  | q :: l' =>
      if p =? q then Some l'
      else match remove_first p l' with
           | Some l'' => Some (q :: l'')
           | None => None
           end
  end.

Definition traced_alloc {Mem : Type} (f : ArenaMemAllocProc Mem)
  : ArenaMemAllocProc (Traced Mem) :=
  fun ctx n t =>
    let '(p, m') := f ctx n (inner t) in
    (p, {| inner := m';
           live := if p =? NULL then live t else p :: live t;
           stray := stray t |}).

Definition traced_free {Mem : Type} (g : ArenaMemFreeProc Mem)
  : ArenaMemFreeProc (Traced Mem) :=
  fun ctx p t =>
    match remove_first p (live t) with
    | Some l => {| inner := g ctx p (inner t); live := l; stray := stray t |}
    | None => {| inner := g ctx p (inner t); live := live t; stray := p :: stray t |}
    end.

(** The pointers a chain holds: for every block its record and its buffer. *)
Definition owned (chain : list ArenaBlock) : list Z :=
  flat_map (fun b => [addr b; data b]) chain.

(** The sum that [arena_total_capacity] walks. *)
Definition capacity_sum (chain : list ArenaBlock) : Z :=
  fold_right (fun b s => capacity b + s) 0 chain.

(** The part of a block already handed out. *)
Definition used_part (b : ArenaBlock) : region := (data b, offset b).

(** What the arena holds and what the provider has live agree, up to what
    was live before the arena existed. *)
Definition holds_exactly {Mem : Type} (f : ArenaMemAllocProc Mem)
    (g : ArenaMemFreeProc Mem) (t0 : Traced Mem)
    (ar : ArenaAllocator (Traced Mem)) (t : Traced Mem) : Prop :=
  mem_alloc ar = traced_alloc f /\ mem_free ar = traced_free g
  /\ Permutation (live t) (owned (head ar) ++ live t0)
  /\ stray t = stray t0.

(** The pool behind a tracing provider, with one pointer live before the
    arena is created; and the arena of [test.c] on it: [arena_create] with
    capacity 200, 200 bytes allocated, then 4 bytes aligned to 4. *)
Definition traced_pool0 : Traced Pool :=
  {| inner := pool0; live := [64]; stray := [] |}.

Definition traced_arena2 : ArenaAllocator (Traced Pool) :=
  {| mem_alloc := traced_alloc pool_alloc; mem_free := traced_free pool_free;
     head := [{| addr := 4336; data := 4368; offset := 4; capacity := 4 |};
              {| addr := 4096; data := 4128; offset := 200; capacity := 200 |}] |}.

Definition traced_pool2 : Traced Pool :=
  {| inner := {| pool_next := 4384; pool_limit := 1000000 |};
     live := [4368; 4336; 4128; 4096; 64]; stray := [] |}.

(** ** The test harness and the test ([test_urself.h], [test.c])

    An [int] is a [Z] in [INT_MIN, INT_MAX], signed overflow is
    [Undefined]; what the harness prints is a list of lines, with the
    numbers of a line kept as numbers. *)

Delimit Scope string_scope with string.

Definition INT_MAX : Z := 2147483647.
Definition INT_MIN : Z := -2147483648.

Definition int_of (x : Z) : result Z :=
  if (INT_MIN <=? x) && (x <=? INT_MAX) then Ok x else Undefined.

Definition sizeof_int : Z := 4.
Definition alignof_int : Z := 4.

Record tu_Test : Type := mk_tu_Test {
  title : String.string;
  tests_count : Z;
  error_count : Z
}.

(** The lines of output: the header, one line per failed predicate, and
    the result line with its two [%u] numbers. *)
Inductive tu_line : Type :=
| tu_header (t : String.string)
| tu_failed (msg : String.string)
| tu_result (pass : bool) (ok total : Z).

Definition tu_displayHeader (t : tu_Test) (out : list tu_line) : list tu_line :=
  out ++ [tu_header (title t)].

Definition tu_assert (t : tu_Test) (expr : bool) (msg : String.string)
    (out : list tu_line) : result (tu_Test * list tu_line) :=
  n <- int_of (tests_count t + 1) ;;
  let t := {| title := title t; tests_count := n; error_count := error_count t |} in
  if negb expr then
    e <- int_of (error_count t + 1) ;;
    Ok ({| title := title t; tests_count := tests_count t; error_count := e |},
        out ++ [tu_failed msg])
  else Ok (t, out).

(** An [int] passed for [%u] is printed as the [unsigned] of the same bits. *)
Definition as_unsigned (x : Z) : Z := x mod 2 ^ 32.

Definition tu_displayResults (t : tu_Test) (out : list tu_line)
  : result (list tu_line) :=
  ok <- int_of (tests_count t - error_count t) ;;
  Ok (out ++ [tu_result (negb (error_count t >? 0)) (as_unsigned ok)
                (as_unsigned (tests_count t))]).

Definition Test_Begin (title_ : String.string) : tu_Test * list tu_line :=
  let t := {| title := title_; tests_count := 0; error_count := 0 |} in
  (t, tu_displayHeader t []).

(** The value the enclosing function returns, and the output. *)
Definition Test_End (t : tu_Test) (out : list tu_line) : result (Z * list tu_line) :=
  out <- tu_displayResults t out ;;
  Ok (error_count t, out).

Definition Tp := tu_assert.

(** A run of predicates, one [Tp] each. *)
Fixpoint Tp_all (t : tu_Test) (checks : list (bool * String.string))
    (out : list tu_line) : result (tu_Test * list tu_line) :=
  match checks with
  | [] => Ok (t, out)
  | (expr, msg) :: rest =>
      '(t, out) <- Tp t expr msg out ;;
      Tp_all t rest out
  end.

Definition failures (checks : list (bool * String.string)) : list String.string :=
  map snd (filter (fun c => negb (fst c)) checks).

(** [arena_alloc(ar_ptr, T, n)]: the product is taken in [size_t]. *)
Definition arena_alloc {Mem : Type} (fuel : nat) (ar : ArenaAllocator Mem)
    (sizeof_T alignof_T n : Z) (m : Mem) : result (Z * ArenaAllocator Mem * Mem) :=
  arena_alloc_raw fuel ar (wrap (sizeof_T * wrap n)) alignof_T m.

(** A store of an [int] at [p[index]], for a pointer [p] obtained from the
    arena: undefined through a null pointer, and when the four bytes are
    not among the bytes some block of the arena has handed out. *)
Definition store_int {Mem : Type} (ar : ArenaAllocator Mem) (p index : Z)
  : result unit :=
  if p =? NULL then Undefined
  else
    let a := p + sizeof_int * index in
    if existsb (fun b => (data b <=? a) && (a + sizeof_int <=? data b + offset b))
         (head ar)
    then Ok tt else Undefined.

(** [ar.head->offset] *)
Definition head_offset {Mem : Type} (ar : ArenaAllocator Mem) : result Z :=
  match head ar with
  | [] => Undefined
  | b :: _ => Ok (offset b)
  end.

(** [test.c] *)
Module test_c.

Section Test.

Variable Mem : Type.
Variable malloc : Z -> Mem -> Z * Mem.
Variable free : Z -> Mem -> Mem.

(** The value returned, the output and the C library's memory state. *)
Definition test_arena (fuel : nat) (m : Mem) : result (Z * list tu_line * Mem) :=
  let '(t, out) := Test_Begin "Arena Allocator"%string in
  let '(ar, m) := arena_create malloc free None None 200 m in
  n <- int_of 40 ;;
  count <- int_of (n + 9) ;;
  '(numbers, ar, m) <- arena_alloc fuel ar sizeof_int alignof_int count m ;;
  '(t, out) <- Tp t (negb (numbers =? NULL)) "numbers != NULL"%string out ;;
  _ <- store_int ar numbers (49 - 1) ;;
  '(num0, ar, m) <- arena_alloc_raw fuel ar sizeof_int alignof_int m ;;
  '(t, out) <- Tp t (negb (num0 =? NULL)) "num0 != NULL"%string out ;;
  _ <- store_int ar num0 0 ;;
  '(num1, ar, m) <- arena_alloc_raw fuel ar sizeof_int alignof_int m ;;
  '(t, out) <- Tp t (negb (num1 =? NULL)) "num1 != NULL"%string out ;;
  _ <- store_int ar num1 0 ;;
  '(t, out) <- Tp t (arena_block_count ar =? 2)
                 "arena_block_count(&ar) == 2"%string out ;;
  ar <- arena_reset ar ;;
  o <- head_offset ar ;;
  '(t, out) <- Tp t (o =? 0) "ar.head->offset == 0"%string out ;;
  '(num2, ar, m) <- arena_alloc_raw fuel ar (wrap (sizeof_int * 30)) alignof_int m ;;
  '(t, out) <- Tp t (negb (num2 =? NULL)) "num2 != NULL"%string out ;;
  '(t, out) <- Tp t (arena_block_count ar =? 2)
                 "arena_block_count(&ar) == 2"%string out ;;
  _ <- store_int ar num2 0 ;;
  '(ar, m) <- arena_destroy ar m ;;
  '(res, out) <- Test_End t out ;;
  Ok (res, out, m).

Definition main (fuel : nat) (m : Mem) : result (Z * list tu_line * Mem) :=
  '(res, out, m) <- test_arena fuel m ;;
  Ok (res, out, m).

End Test.

Arguments test_arena {Mem}.
Arguments main {Mem}.

End test_c.

(** A [malloc] over the pool, and what [test.c] prints when it passes. *)
Definition pool_malloc : Z -> Pool -> Z * Pool := pool_alloc NULL.
Definition pool_free_ : Z -> Pool -> Pool := pool_free NULL.

Definition test_passed : list tu_line :=
  [tu_header "Arena Allocator"%string; tu_result true 7 7].

(** The pool can serve [k] more requests of up to 200 bytes. *)
Definition pool_serves (k : nat) (m : Pool) : Prop :=
  pool_next m mod 16 = 0 /\ 0 < pool_next m
  /\ pool_next m + 256 * Z.of_nat k <= pool_limit m
  /\ pool_limit m < word_modulus.

(** ** Word arithmetic *)

Lemma word_modulus_pos : 0 < word_modulus.
Proof. reflexivity. Qed.

Lemma wrap_range (x : Z) : 0 <= wrap x < word_modulus.
Proof. apply Z.mod_pos_bound, word_modulus_pos. Qed.

Lemma wrap_small (x : Z) : 0 <= x < word_modulus -> wrap x = x.
Proof. apply Z.mod_small. Qed.

(** Goals over words: every [mod 2^64] becomes its quotient and remainder. *)
Ltac word_lia :=
  unfold wadd, wsub, wrap, NULL in *;
  change word_modulus with 18446744073709551616 in *;
  Z.to_euclidean_division_equations; lia.

Lemma is_pow2_pos (a : Z) : is_pow2 a -> 0 < a.
Proof. intros (k & Hk & ->). apply Z.pow_pos_nonneg; lia. Qed.

Lemma is_pow2_divide (a : Z) : is_pow2 a -> (a | word_modulus).
Proof.
  intros (k & Hk & ->). exists (2 ^ (word_bits - k)).
  unfold word_modulus. rewrite <- Z.pow_add_r by lia. f_equal. lia.
Qed.

Lemma wrap_mod_divide (a x : Z) :
  0 < a -> (a | word_modulus) -> wrap x mod a = x mod a.
Proof.
  intros Ha Hd. unfold wrap.
  now apply Z.mod_mod_divide.
Qed.

Lemma align_forward_ptr_multiple (p a q : Z) :
  0 < a -> (a | word_modulus) ->
  align_forward_ptr p a = Ok q -> q mod a = 0.
Proof.
  intros Ha Hd. unfold align_forward_ptr.
  destruct (Z.eqb_spec a 0) as [|_]; [lia|].
  intros [= <-]. rewrite Z.gtb_ltb.
  destruct (Z.ltb_spec 0 (p mod a)) as [Hm|Hm].
  - unfold wadd. rewrite wrap_mod_divide by assumption.
    rewrite <- Zplus_mod_idemp_r. unfold wsub.
    rewrite wrap_mod_divide by assumption.
    rewrite Zplus_mod_idemp_r.
    replace (p + (a - p mod a)) with (1 * a + (p - p mod a)) by ring.
    rewrite Z.add_comm, Z_mod_plus_full.
    rewrite Zminus_mod_idemp_r, Z.sub_diag. apply Z.mod_0_l. lia.
  - pose proof (Z.mod_pos_bound p a Ha). lia.
Qed.

Lemma align_forward_ptr_range (p a q : Z) :
  0 <= p < word_modulus -> align_forward_ptr p a = Ok q -> 0 <= q < word_modulus.
Proof.
  intros Hp. unfold align_forward_ptr. destruct (a =? 0); [discriminate|].
  intros [= <-]. destruct (_ >? _); [apply wrap_range | assumption].
Qed.

(** The address that a committing [arena_block_alloc_raw] returns is the
    forward-aligned cursor, whatever wrapped on the way. *)
Lemma arena_block_alloc_raw_ptr (blk : ArenaBlock) (nbytes a p : Z) (blk' : ArenaBlock) :
  arena_block_alloc_raw blk nbytes a = Ok (p, blk') ->
  p = NULL \/ align_forward_ptr (wadd (data blk) (offset blk)) a = Ok p.
Proof.
  unfold arena_block_alloc_raw, arena_block_get_required.
  destruct (align_forward_ptr _ a) as [q| |] eqn:Hq; cbn [bind]; try discriminate.
  destruct (_ >? _); intros [= <- <-]; [now left|right].
  f_equal. cbn [data offset set_offset].
  pose proof (align_forward_ptr_range _ _ _ (wrap_range _) Hq) as Hr.
  revert Hr. word_lia.
Qed.

Lemma arena_block_alloc_raw_multiple (blk : ArenaBlock) (nbytes a p : Z) (blk' : ArenaBlock) :
  0 < a -> (a | word_modulus) ->
  arena_block_alloc_raw blk nbytes a = Ok (p, blk') -> p mod a = 0.
Proof.
  intros Ha Hd H. destruct (arena_block_alloc_raw_ptr _ _ _ _ _ H) as [->|Hq].
  - apply Z.mod_0_l. lia.
  - eapply align_forward_ptr_multiple; eauto.
Qed.

Lemma arena_alloc_search_multiple (chain : list ArenaBlock) (nbytes a p : Z)
    (chain' : list ArenaBlock) :
  0 < a -> (a | word_modulus) ->
  arena_alloc_search chain nbytes a = Ok (p, chain') -> p mod a = 0.
Proof.
  intros Ha Hd. revert p chain'.
  induction chain as [|blk next IH]; intros p chain'; cbn [arena_alloc_search].
  - intros [= <- <-]. apply Z.mod_0_l. lia.
  - destruct (arena_block_alloc_raw blk nbytes a) as [[q blk']| |] eqn:Hb;
      cbn [bind]; try discriminate.
    destruct (q =? NULL); cbn [negb].
    + destruct (arena_alloc_search next nbytes a) as [[r next']| |];
        cbn [bind]; try discriminate.
      intros [= <- <-]. eapply IH; eauto.
    + intros [= <- <-]. eapply arena_block_alloc_raw_multiple; eauto.
Qed.

(** One unfolding of [arena_alloc_raw], at any fuel. *)
Lemma arena_alloc_raw_eq {Mem : Type} (fuel : nat) (ar : ArenaAllocator Mem)
    (nbytes alignment : Z) (m : Mem) :
  arena_alloc_raw fuel ar nbytes alignment m =
  if nbytes =? 0 then Ok (NULL, ar, m)
  else
    '(p, chain) <- arena_alloc_search (head ar) nbytes alignment ;;
    let ar := set_head ar chain in
    if negb (p =? NULL) then Ok (p, ar, m)
    else
      new_cap <- align_forward_size nbytes alignment ;;
      grown <- arena_grow_capacity new_cap ;;
      let '(ok, ar, m) := arena_push_block ar grown m in
      if ok then
        match fuel with
        | O => OutOfFuel
        | S fuel' => arena_alloc_raw fuel' ar nbytes alignment m
        end
      else Ok (NULL, ar, m).
Proof. destruct fuel; reflexivity. Qed.

(** ** One block *)

Lemma mod_opp_cases (x a : Z) :
  0 < a ->
  (x mod a = 0 /\ (- x) mod a = 0) \/
  (0 < x mod a < a /\ (- x) mod a = a - x mod a).
Proof.
  intros Ha. pose proof (Z.mod_pos_bound x a Ha).
  destruct (Z.eq_dec (x mod a) 0) as [E|E].
  - left. split; [assumption|]. apply Z.mod_opp_l_z; [lia|assumption].
  - right. split; [lia|]. apply Z.mod_opp_l_nz; [lia|assumption].
Qed.

Lemma aligned_cursor_multiple (b : ArenaBlock) (a : Z) :
  0 < a -> aligned_cursor b a mod a = 0.
Proof.
  intros Ha. unfold aligned_cursor, padding_of.
  rewrite Zplus_mod_idemp_r, Z.add_opp_diag_r. apply Z.mod_0_l. lia.
Qed.

Lemma padding_of_range (b : ArenaBlock) (a : Z) :
  0 < a -> 0 <= padding_of b a < a.
Proof. intros Ha. apply Z.mod_pos_bound, Ha. Qed.

(** A block with enough room commits at its aligned cursor. *)
Lemma arena_block_alloc_raw_fits (b : ArenaBlock) (nbytes a : Z) :
  block_wf b -> 0 < nbytes -> 0 < a ->
  block_fits b nbytes a ->
  arena_block_alloc_raw b nbytes a = Ok (aligned_cursor b a, block_commit b nbytes a).
Proof.
  intros (Hd & Ho & Hc) Hn Ha Hf.
  unfold block_fits in Hf.
  unfold arena_block_alloc_raw, arena_block_get_required, align_forward_ptr,
    block_commit, aligned_cursor, padding_of in *.
  destruct (Z.eqb_spec a 0) as [|_]; [lia|]. cbn [bind].
  assert (Hcur : wadd (data b) (offset b) = data b + offset b).
  { apply wrap_small. lia. }
  rewrite Hcur. rewrite !Z.gtb_ltb.
  destruct (mod_opp_cases (data b + offset b) a Ha) as [[E1 E2]|[E1 E2]];
    rewrite E2 in *.
  - destruct (Z.ltb_spec 0 ((data b + offset b) mod a)); [lia|].
    destruct (Z.ltb_spec
      (wsub (capacity b) (wsub (data b + offset b) (data b)))
      (wadd (wsub (data b + offset b) (data b + offset b)) nbytes)) as [L|L].
    + exfalso. revert L. clear E1 E2 H. word_lia.
    + cbn [set_offset data offset]. f_equal. f_equal.
      * clear E1 E2 H L. word_lia.
      * unfold set_offset. f_equal. clear E1 E2 H L. word_lia.
  - destruct (Z.ltb_spec 0 ((data b + offset b) mod a)); [|lia].
    set (r := (data b + offset b) mod a) in *. clearbody r.
    destruct (Z.ltb_spec
      (wsub (capacity b) (wsub (data b + offset b) (data b)))
      (wadd (wsub (wadd (data b + offset b) (wsub a r)) (data b + offset b)) nbytes))
      as [L|L].
    + exfalso. revert L. clear E2. word_lia.
    + cbn [set_offset data offset]. f_equal. f_equal.
      * clear E2 L. word_lia.
      * unfold set_offset. f_equal. clear E2 L. word_lia.
Qed.

(** A block without enough room is left as it is. *)
Lemma arena_block_alloc_raw_rejects (b : ArenaBlock) (nbytes a : Z) :
  block_wf b -> 0 < nbytes -> 0 < a -> nbytes + a <= word_modulus ->
  ~ block_fits b nbytes a ->
  arena_block_alloc_raw b nbytes a = Ok (NULL, b).
Proof.
  intros (Hd & Ho & Hc) Hn Ha Hna Hf.
  unfold block_fits in Hf.
  unfold arena_block_alloc_raw, arena_block_get_required, align_forward_ptr,
    padding_of in *.
  destruct (Z.eqb_spec a 0) as [|_]; [lia|]. cbn [bind].
  assert (Hcur : wadd (data b) (offset b) = data b + offset b).
  { apply wrap_small. lia. }
  rewrite Hcur. rewrite !Z.gtb_ltb.
  destruct (mod_opp_cases (data b + offset b) a Ha) as [[E1 E2]|[E1 E2]];
    rewrite E2 in *.
  - destruct (Z.ltb_spec 0 ((data b + offset b) mod a)); [lia|].
    destruct (Z.ltb_spec
      (wsub (capacity b) (wsub (data b + offset b) (data b)))
      (wadd (wsub (data b + offset b) (data b + offset b)) nbytes)) as [L|L];
      [reflexivity|].
    exfalso. revert L. clear E1 E2 H. word_lia.
  - destruct (Z.ltb_spec 0 ((data b + offset b) mod a)); [|lia].
    set (r := (data b + offset b) mod a) in *. clearbody r.
    destruct (Z.ltb_spec
      (wsub (capacity b) (wsub (data b + offset b) (data b)))
      (wadd (wsub (wadd (data b + offset b) (wsub a r)) (data b + offset b)) nbytes))
      as [L|L]; [reflexivity|].
    exfalso. revert L. clear E2. word_lia.
Qed.

Lemma aligned_cursor_lower (b : ArenaBlock) (a : Z) :
  block_wf b -> 0 < a -> a <= aligned_cursor b a.
Proof.
  intros (Hd & Ho & _) Ha.
  pose proof (padding_of_range b a Ha) as Hp.
  assert (Hpos : 0 < aligned_cursor b a) by (unfold aligned_cursor; lia).
  apply Z.divide_pos_le; [assumption|].
  apply Z.mod_divide; [lia|]. now apply aligned_cursor_multiple.
Qed.

(** A request that fits a real block cannot make the byte arithmetic wrap,
    in this block or in any other. *)
Lemma block_fits_no_wrap (b : ArenaBlock) (nbytes a : Z) :
  block_wf b -> 0 < a -> block_fits b nbytes a -> nbytes + a <= word_modulus.
Proof.
  intros Hwf Ha Hf. pose proof (aligned_cursor_lower b a Hwf Ha) as Hl.
  destruct Hwf as (Hd & Ho & Hc).
  unfold block_fits in Hf. unfold aligned_cursor in Hl. lia.
Qed.

(** ** The search over the chain *)

Lemma arena_alloc_search_rejects (chain : list ArenaBlock) (nbytes a : Z) :
  0 < nbytes -> 0 < a -> nbytes + a <= word_modulus ->
  Forall block_wf chain ->
  Forall (fun b => ~ block_fits b nbytes a) chain ->
  arena_alloc_search chain nbytes a = Ok (NULL, chain).
Proof.
  intros Hn Ha Hna Hwf Hnf.
  induction chain as [|blk next IH]; cbn [arena_alloc_search]; [reflexivity|].
  inversion Hwf as [|? ? Hw Hws]; subst. inversion Hnf as [|? ? Hb Hbs]; subst.
  rewrite arena_block_alloc_raw_rejects by assumption. cbn [bind].
  change (negb (NULL =? NULL)) with false. cbv iota.
  rewrite IH by assumption. reflexivity.
Qed.

Lemma arena_alloc_search_first_fit (pre : list ArenaBlock) (b : ArenaBlock)
    (post : list ArenaBlock) (nbytes a : Z) :
  0 < nbytes -> 0 < a ->
  Forall block_wf pre -> block_wf b ->
  Forall (fun x => ~ block_fits x nbytes a) pre ->
  block_fits b nbytes a ->
  arena_alloc_search (pre ++ b :: post) nbytes a =
  Ok (aligned_cursor b a, pre ++ block_commit b nbytes a :: post).
Proof.
  intros Hn Ha Hwf Hb Hnf Hf.
  pose proof (block_fits_no_wrap b nbytes a Hb Ha Hf) as Hna.
  pose proof (aligned_cursor_lower b a Hb Ha) as Hl.
  induction pre as [|blk next IH]; cbn [app arena_alloc_search].
  - rewrite arena_block_alloc_raw_fits by assumption. cbn [bind].
    destruct (Z.eqb_spec (aligned_cursor b a) NULL) as [E|_];
      [unfold NULL in E; lia|reflexivity].
  - inversion Hwf as [|? ? Hw Hws]; subst. inversion Hnf as [|? ? Hx Hxs]; subst.
    rewrite arena_block_alloc_raw_rejects by assumption. cbn [bind].
    change (negb (NULL =? NULL)) with false. cbv iota.
    rewrite IH by assumption. reflexivity.
Qed.

(** ** Reset and the queries *)

Lemma arena_reset_from_map (cur : ArenaBlock) (next : list ArenaBlock) :
  arena_reset_from cur next = map (fun b => set_offset b 0) (cur :: next).
Proof.
  revert cur. induction next as [|nxt rest IH]; intros cur; cbn; [reflexivity|].
  f_equal. apply IH.
Qed.

Lemma arena_block_count_from_length (chain chain' : list ArenaBlock) (total : Z) :
  length chain = length chain' ->
  arena_block_count_from chain total = arena_block_count_from chain' total.
Proof.
  revert chain' total. induction chain as [|b next IH]; intros [|b' next'] total;
    cbn; try discriminate; auto.
Qed.

Lemma arena_total_capacity_from_map (chain chain' : list ArenaBlock) (total : Z) :
  map capacity chain = map capacity chain' ->
  arena_total_capacity_from chain total = arena_total_capacity_from chain' total.
Proof.
  revert chain' total. induction chain as [|b next IH]; intros [|b' next'] total;
    cbn; try discriminate; auto.
  intros [= -> E]. now apply IH.
Qed.

(** ** Reserving a block *)

Lemma arena_block_create_fails {Mem : Type} (ar : ArenaAllocator Mem) (cap : Z) (m : Mem) :
  reserve_fails ar cap m -> exists m', arena_block_create ar cap m = (None, m').
Proof.
  unfold reserve_fails, arena_block_create.
  destruct (mem_alloc ar NULL sizeof_ArenaBlock m) as [blk m1]. cbn [fst snd].
  destruct (mem_alloc ar NULL cap m1) as [d m2]. cbn [fst].
  intros [-> | ->].
  - eexists. reflexivity.
  - destruct (blk =? NULL); eexists; reflexivity.
Qed.

Lemma arena_block_create_succeeds {Mem : Type} (ar : ArenaAllocator Mem) (cap : Z) (m : Mem) :
  ~ reserve_fails ar cap m ->
  exists blk d m',
    arena_block_create ar cap m =
      (Some {| addr := blk; data := d; offset := 0; capacity := cap |}, m')
    /\ blk <> NULL /\ d <> NULL
    /\ mem_alloc ar NULL sizeof_ArenaBlock m = (blk, snd (mem_alloc ar NULL sizeof_ArenaBlock m))
    /\ mem_alloc ar NULL cap (snd (mem_alloc ar NULL sizeof_ArenaBlock m)) = (d, m').
Proof.
  unfold reserve_fails, arena_block_create.
  destruct (mem_alloc ar NULL sizeof_ArenaBlock m) as [blk m1]. cbn [fst snd].
  destruct (mem_alloc ar NULL cap m1) as [d m2]. cbn [fst].
  intros Hnf.
  destruct (Z.eqb_spec blk NULL) as [E|E]; [tauto|].
  destruct (Z.eqb_spec d NULL) as [E'|E']; [tauto|].
  exists blk, d, m2. auto.
Qed.


Lemma align_forward_size_bounds (n a c : Z) :
  0 < n -> 0 < a -> n + a <= word_modulus ->
  align_forward_size n a = Ok c -> n <= c < n + a.
Proof.
  intros Hn Ha Hna. unfold align_forward_size.
  destruct (Z.eqb_spec a 0); [lia|]. intros [= <-].
  pose proof (Z.mod_pos_bound n a Ha) as Hr.
  rewrite Z.gtb_ltb. destruct (Z.ltb_spec 0 (n mod a)); [|lia].
  set (r := n mod a) in *. clearbody r. word_lia.
Qed.


(** ** Binary64 rounding, as far as the growth of a block needs it *)

Lemma digits2_pos_bounds (p : positive) :
  2 ^ (Zpos (digits2_pos p) - 1) <= Zpos p < 2 ^ Zpos (digits2_pos p).
Proof.
  induction p as [p IH|p IH|]; cbn [digits2_pos].
  - rewrite Pos2Z.inj_succ, (Pos2Z.inj_xI p).
    replace (Z.succ (Zpos (digits2_pos p)) - 1) with (Z.succ (Zpos (digits2_pos p) - 1)) by lia.
    rewrite !Z.pow_succ_r by lia. lia.
  - rewrite Pos2Z.inj_succ, (Pos2Z.inj_xO p).
    replace (Z.succ (Zpos (digits2_pos p)) - 1) with (Z.succ (Zpos (digits2_pos p) - 1)) by lia.
    rewrite !Z.pow_succ_r by lia. lia.
  - cbn. lia.
Qed.

Lemma digits2_pos_unique (p : positive) (d : Z) :
  2 ^ (d - 1) <= Zpos p < 2 ^ d -> 0 < d -> Zpos (digits2_pos p) = d.
Proof.
  intros [Hl Hu] Hd. pose proof (digits2_pos_bounds p) as [Bl Bu].
  assert (d - 1 < Zpos (digits2_pos p)).
  { apply (Z.pow_lt_mono_r_iff 2); lia. }
  assert (Zpos (digits2_pos p) - 1 < d).
  { apply (Z.pow_lt_mono_r_iff 2); lia. }
  lia.
Qed.

Lemma shr_1_m (mrs : shr_record) :
  0 <= shr_m mrs -> shr_m (shr_1 mrs) = shr_m mrs / 2.
Proof.
  destruct mrs as [m r s]. cbn [shr_m].
  destruct m as [|[p|p|]|p]; intros H; cbn [shr_1 shr_m]; try lia.
  - reflexivity.
  - rewrite (Pos2Z.inj_xI p). apply Z.div_unique with 1; lia.
  - rewrite (Pos2Z.inj_xO p). apply Z.div_unique with 0; lia.
  - reflexivity.
Qed.

Lemma iter_pos_shr_1_m (p : positive) (mrs : shr_record) :
  0 <= shr_m mrs ->
  shr_m (iter_pos shr_1 p mrs) = shr_m mrs / 2 ^ Zpos p.
Proof.
  revert mrs. induction p as [p IH|p IH|]; intros mrs H; cbn [iter_pos].
  - assert (H1 : 0 <= shr_m (shr_1 mrs)).
    { rewrite shr_1_m by assumption. apply Z.div_pos; lia. }
    assert (H2 : 0 <= shr_m (iter_pos shr_1 p (shr_1 mrs))).
    { rewrite IH by assumption. apply Z.div_pos; [assumption|].
      apply Z.pow_pos_nonneg; lia. }
    rewrite IH, IH, shr_1_m by assumption.
    rewrite !Z.div_div by (try apply Z.pow_pos_nonneg; lia).
    f_equal. rewrite (Pos2Z.inj_xI p).
    replace (2 * Zpos p + 1) with (1 + Zpos p + Zpos p) by lia.
    rewrite !Z.pow_add_r by lia. change (2 ^ 1) with 2. ring.
  - assert (H2 : 0 <= shr_m (iter_pos shr_1 p mrs)).
    { rewrite IH by assumption. apply Z.div_pos; [assumption|].
      apply Z.pow_pos_nonneg; lia. }
    rewrite IH, IH by assumption.
    rewrite !Z.div_div by (try apply Z.pow_pos_nonneg; lia).
    f_equal. rewrite (Pos2Z.inj_xO p).
    replace (2 * Zpos p) with (Zpos p + Zpos p) by lia.
    rewrite !Z.pow_add_r by lia. ring.
  - rewrite shr_1_m by assumption. reflexivity.
Qed.

Lemma round_nearest_even_bounds (m : Z) (l : location) :
  m <= round_nearest_even m l <= m + 1.
Proof.
  destruct l as [|[]]; cbn [round_nearest_even]; try lia.
  destruct (Z.even m); lia.
Qed.

(** Shifting a mantissa of [d >= 53] digits to 53 digits. *)
Lemma shr_fexp_m (m : positive) (e : Z) (l : location) :
  let d := Zpos (digits2_pos m) in
  53 <= d -> -1000 <= e ->
  exists mrs,
    shr_fexp prec emax (Zpos m) e l = (mrs, e + (d - 53))
    /\ shr_m mrs = Zpos m / 2 ^ (d - 53).
Proof.
  intros d Hd He. unfold shr_fexp, shr. cbn [Zdigits2]. fold d.
  assert (Hf : fexp prec emax (d + e) - e = d - 53).
  { unfold fexp, emin, prec, emax. lia. }
  rewrite Hf.
  destruct (d - 53) as [|k|k] eqn:Hk; try lia.
  - eexists. split; [rewrite Z.add_0_r; reflexivity|].
    destruct l as [|[]]; cbn; now rewrite Z.div_1_r.
  - eexists. split; [reflexivity|].
    rewrite iter_pos_shr_1_m; destruct l as [|[]]; cbn [shr_record_of_loc shr_m];
      try reflexivity; lia.
Qed.

(** Rounding a mantissa of [d >= 53] digits to binary64, away from the
    subnormal and the overflow ranges: the result is finite and within one
    unit in the last place of the exact value. *)
Lemma binary_round_aux_bounds (m : positive) (e : Z) :
  let d := Zpos (digits2_pos m) in
  53 <= d -> -1000 <= e -> e + d <= 900 ->
  exists m' e',
    binary_round_aux prec emax false (Zpos m) e loc_Exact = S754_finite false m' e'
    /\ 2 ^ 52 <= Zpos m' < 2 ^ 53
    /\ e + (d - 53) <= e' <= e + (d - 53) + 1
    /\ Zpos m - 2 ^ (d - 53) < Zpos m' * 2 ^ (e' - e) <= Zpos m + 2 ^ (d - 53).
Proof.
  intros d Hd He Hed.
  pose proof (digits2_pos_bounds m) as [Bl Bu]. fold d in Bl, Bu.
  assert (Hk : 0 < 2 ^ (d - 53)) by (apply Z.pow_pos_nonneg; lia).
  assert (Hsplit : 2 ^ (d - 1) = 2 ^ 52 * 2 ^ (d - 53)).
  { rewrite <- Z.pow_add_r by lia. f_equal. lia. }
  assert (Hsplit' : 2 ^ d = 2 ^ 53 * 2 ^ (d - 53)).
  { rewrite <- Z.pow_add_r by lia. f_equal. lia. }
  set (m1 := Zpos m / 2 ^ (d - 53)).
  assert (Hm1 : 2 ^ 52 <= m1 < 2 ^ 53).
  { subst m1. split.
    - apply Z.div_le_lower_bound; lia.
    - apply Z.div_lt_upper_bound; lia. }
  assert (Hdiv : m1 * 2 ^ (d - 53) <= Zpos m < (m1 + 1) * 2 ^ (d - 53)).
  { subst m1. pose proof (Z.mul_div_le (Zpos m) (2 ^ (d - 53)) Hk).
    pose proof (Z.mul_succ_div_gt (Zpos m) (2 ^ (d - 53)) Hk). lia. }
  unfold binary_round_aux.
  destruct (shr_fexp_m m e loc_Exact Hd He) as (mrs1 & E1 & M1).
  fold d in E1, M1. fold m1 in M1. rewrite E1.
  pose proof (round_nearest_even_bounds (shr_m mrs1) (loc_of_shr_record mrs1)) as Hr.
  set (m2 := round_nearest_even (shr_m mrs1) (loc_of_shr_record mrs1)) in *.
  rewrite M1 in Hr. clearbody m2.
  destruct m2 as [|q|q]; try lia.
  destruct (Z.eq_dec (Zpos q) (2 ^ 53)) as [Eq|Nq].
  - (* the rounding carried into a 54th digit *)
    assert (Hq : Zpos (digits2_pos q) = 54).
    { apply digits2_pos_unique; [|lia]. rewrite Eq. cbn. lia. }
    destruct (shr_fexp_m q (e + (d - 53)) loc_Exact) as (mrs2 & E2 & M2);
      [lia|lia|].
    rewrite Hq in E2, M2. rewrite E2.
    rewrite M2, Eq. change (2 ^ 53 / 2 ^ (54 - 53)) with (Zpos 4503599627370496).
    destruct (Z.leb_spec (e + (d - 53) + (54 - 53)) (emax - prec)) as [_|L];
      [|unfold emax, prec in L; lia].
    eexists _, _. split; [reflexivity|]. split; [cbn; lia|]. split; [lia|].
    replace (e + (d - 53) + (54 - 53) - e) with (1 + (d - 53)) by lia.
    rewrite Z.pow_add_r by lia.
    replace (Zpos 4503599627370496 * (2 ^ 1 * 2 ^ (d - 53)))
      with (2 ^ 53 * 2 ^ (d - 53)) by (change (2 ^ 53) with (Zpos 4503599627370496 * 2 ^ 1); ring).
    rewrite <- Eq. nia.
  - assert (Hq : Zpos (digits2_pos q) = 53).
    { apply digits2_pos_unique; lia. }
    destruct (shr_fexp_m q (e + (d - 53)) loc_Exact) as (mrs2 & E2 & M2);
      [lia|lia|].
    rewrite Hq in E2, M2. rewrite E2.
    rewrite M2. change (2 ^ (53 - 53)) with 1. rewrite Z.div_1_r.
    destruct (Z.leb_spec (e + (d - 53) + (53 - 53)) (emax - prec)) as [_|L];
      [|unfold emax, prec in L; lia].
    eexists _, _. split; [reflexivity|]. split; [lia|]. split; [lia|].
    replace (e + (d - 53) + (53 - 53) - e) with (d - 53) by lia.
    nia.
Qed.

(** A mantissa of exactly 53 digits is kept as it is. *)
Lemma binary_round_aux_exact (m : positive) (e : Z) :
  Zpos (digits2_pos m) = 53 -> -1000 <= e <= 900 ->
  binary_round_aux prec emax false (Zpos m) e loc_Exact = S754_finite false m e.
Proof.
  intros Hd He. unfold binary_round_aux, shr_fexp, shr. cbn [Zdigits2].
  rewrite Hd.
  assert (Hf : fexp prec emax (53 + e) - e = 0).
  { unfold fexp, emin, prec, emax. lia. }
  rewrite Hf. cbn [shr_record_of_loc shr_m loc_of_shr_record round_nearest_even Zdigits2].
  rewrite Hd, Hf. cbn [shr_m].
  destruct (Z.leb_spec e (emax - prec)) as [_|L];
    [reflexivity|unfold emax, prec in L; lia].
Qed.

Lemma pos_iter_xO (c k : positive) :
  Zpos (Pos.iter xO c k) = Zpos c * 2 ^ Zpos k.
Proof.
  induction k as [|k IH] using Pos.peano_ind.
  - cbn [Pos.iter]. rewrite (Pos2Z.inj_xO c). change (2 ^ 1) with 2. ring.
  - rewrite Pos.iter_succ, (Pos2Z.inj_xO (Pos.iter xO c k)), IH, Pos2Z.inj_succ.
    rewrite Z.pow_succ_r by lia. ring.
Qed.

(** The conversion of a [size_t] to [double]: exact below [2^53], within
    one unit in the last place above. *)
Lemma size_t_to_double_bounds (c : Z) :
  0 < c < 2 ^ 64 ->
  exists mz ez,
    size_t_to_double c = S754_finite false mz ez
    /\ 2 ^ 52 <= Zpos mz < 2 ^ 53
    /\ -52 <= ez <= 12
    /\ c * 2 ^ (52 - ez) - 2 ^ 52 < Zpos mz * 2 ^ 52 <= c * 2 ^ (52 - ez) + 2 ^ 52.
Proof.
  intros Hc. destruct c as [|c|c]; try lia.
  unfold size_t_to_double, binary_normalize, binary_round.
  pose proof (digits2_pos_bounds c) as [Bl Bu].
  set (d := Zpos (digits2_pos c)) in *.
  assert (Hd : 1 <= d <= 64).
  { split; [subst d; lia|].
    assert (d - 1 < 64); [|lia]. apply (Z.pow_lt_mono_r_iff 2); lia. }
  assert (Hf : fexp prec emax (d + 0) = d - 53).
  { unfold fexp, emin, prec, emax. lia. }
  rewrite Hf. unfold shl_align.
  destruct (d - 53 - 0) as [|k|k] eqn:Hk.
  - (* 53 digits: kept as it is *)
    assert (d = 53) by lia.
    rewrite binary_round_aux_exact by (fold d; lia).
    exists c, 0. change (52 - 0) with 52. repeat split; try lia.
    + replace 52 with (d - 1) by lia. assumption.
    + replace 53 with d by lia. assumption.
  - (* more than 53 digits: rounded *)
    destruct (binary_round_aux_bounds c 0) as (m' & e' & -> & Hm' & He' & Hv);
      fold d; try lia.
    fold d in He', Hv. rewrite Z.sub_0_r in Hv.
    exists m', e'. split; [reflexivity|]. split; [assumption|]. split; [lia|].
    assert (Hp : 0 < 2 ^ (52 - e')) by (apply Z.pow_pos_nonneg; lia).
    assert (H52 : 2 ^ 52 = 2 ^ e' * 2 ^ (52 - e')).
    { rewrite <- Z.pow_add_r by lia. f_equal. lia. }
    assert (Hulp : 2 ^ (d - 53) <= 2 ^ e') by (apply Z.pow_le_mono_r; lia).
    rewrite H52 at 1 3 4. nia.
  - (* fewer than 53 digits: shifted left, exact *)
    assert (Ek : Zpos k = 53 - d) by lia.
    assert (Hmz : Zpos (Pos.iter xO c k) = Zpos c * 2 ^ (53 - d)).
    { rewrite pos_iter_xO, Ek. reflexivity. }
    assert (Hp : 0 < 2 ^ (53 - d)) by (apply Z.pow_pos_nonneg; lia).
    assert (H52 : 2 ^ 52 = 2 ^ (d - 1) * 2 ^ (53 - d)).
    { rewrite <- Z.pow_add_r by lia. f_equal. lia. }
    assert (H53 : 2 ^ 53 = 2 ^ d * 2 ^ (53 - d)).
    { rewrite <- Z.pow_add_r by lia. f_equal. lia. }
    assert (Hrange : 2 ^ 52 <= Zpos (Pos.iter xO c k) < 2 ^ 53).
    { rewrite Hmz, H52, H53. nia. }
    assert (Hdig : Zpos (digits2_pos (Pos.iter xO c k)) = 53).
    { apply digits2_pos_unique; [|lia]. exact Hrange. }
    rewrite binary_round_aux_exact by (try assumption; lia).
    exists (Pos.iter xO c k), (d - 53). split; [reflexivity|].
    split; [assumption|]. split; [lia|].
    rewrite Hmz. replace (52 - (d - 53)) with (53 - d + 52) by lia.
    rewrite Z.pow_add_r by lia.
    assert (0 < 2 ^ 52) by (apply Z.pow_pos_nonneg; lia). nia.
Qed.

(** The capacity of a grown block: defined for every size below [2^63],
    never below the size it is computed from, at most twice as large. *)
Lemma arena_grow_capacity_bounds (c : Z) :
  0 < c < 2 ^ 63 ->
  exists g, arena_grow_capacity c = Ok g /\ c <= g <= 2 * c.
Proof.
  intros Hc. unfold arena_grow_capacity.
  destruct (size_t_to_double_bounds c) as (mz & ez & -> & Bmz & Hez & Hcz).
  { change (2 ^ 64) with (2 * 2 ^ 63). lia. }
  unfold ARENA_GROW_FACTOR, SFmul. cbn [xorb].
  set (M := 5179139571476070%positive).
  pose proof (digits2_pos_bounds (mz * M)) as [Bl Bu].
  set (d := Zpos (digits2_pos (mz * M))) in *.
  rewrite Pos2Z.inj_mul in Bl, Bu.
  assert (HM : 2 ^ 52 + 2 ^ 49 <= Zpos M <= 2 ^ 52 + 2 ^ 51) by (cbn; lia).
  assert (HP : 2 ^ 104 <= Zpos mz * Zpos M < 2 ^ 106).
  { change (2 ^ 104) with (2 ^ 52 * 2 ^ 52).
    change (2 ^ 106) with (2 ^ 53 * 2 ^ 53).
    change (2 ^ 49) with 562949953421312 in HM.
    change (2 ^ 51) with 2251799813685248 in HM.
    change (2 ^ 52) with 4503599627370496 in *.
    change (2 ^ 53) with 9007199254740992 in *. nia. }
  assert (Hd : 105 <= d <= 106).
  { assert (104 < d) by (apply (Z.pow_lt_mono_r_iff 2); lia).
    assert (d - 1 < 106) by (apply (Z.pow_lt_mono_r_iff 2); lia). lia. }
  destruct (binary_round_aux_bounds (mz * M) (ez + -52))
    as (m' & e' & -> & _ & He' & Hv); fold d; try lia.
  fold d in He', Hv. rewrite Pos2Z.inj_mul in Hv.
  assert (Hulp : 2 ^ (d - 53) <= 2 ^ 53) by (apply Z.pow_le_mono_r; lia).
  set (E := 52 - ez) in *.
  assert (HE : 40 <= E <= 104) by (subst E; lia).
  assert (HE0 : 0 < 2 ^ E) by (apply Z.pow_pos_nonneg; lia).
  (* the truncation [t] of the rounded product sits in
     [t * 2^E <= m' * 2^(e' - e) < (t + 1) * 2^E] *)
  unfold double_to_size_t.
  set (t := if 0 <=? e' then Zpos m' * 2 ^ e' else Zpos m' / 2 ^ (- e')).
  assert (Ht : t * 2 ^ E <= Zpos m' * 2 ^ (e' - (ez + -52)) < (t + 1) * 2 ^ E).
  { subst t. destruct (Z.leb_spec 0 e') as [L|L].
    - replace (e' - (ez + -52)) with (e' + E) by (subst E; lia).
      rewrite Z.pow_add_r by lia.
      assert (0 < 2 ^ e') by (apply Z.pow_pos_nonneg; lia). nia.
    - assert (Hs : 0 < 2 ^ (- e')) by (apply Z.pow_pos_nonneg; lia).
      assert (Hr : 0 < 2 ^ (e' - (ez + -52))) by (apply Z.pow_pos_nonneg; lia).
      replace (2 ^ E) with (2 ^ (- e') * 2 ^ (e' - (ez + -52))).
      2:{ rewrite <- Z.pow_add_r by lia. f_equal. subst E. lia. }
      pose proof (Z.mul_div_le (Zpos m') (2 ^ (- e')) Hs).
      pose proof (Z.mul_succ_div_gt (Zpos m') (2 ^ (- e')) Hs).
      nia. }
  clearbody t.
  change (2 ^ 49) with 562949953421312 in HM.
  change (2 ^ 51) with 2251799813685248 in HM.
  change (2 ^ 52) with 4503599627370496 in *.
  change (2 ^ 53) with 9007199254740992 in *.
  assert (Hlow : c <= t) by nia.
  assert (Hup : t <= 2 * c) by nia.
  destruct (Z.ltb_spec t word_modulus) as [_|L].
  - exists t. split; [reflexivity|lia].
  - change word_modulus with (2 * 2 ^ 63) in L. lia.
Qed.

(** ** Regions handed out and the free parts of the blocks *)

Lemma regions_disjoint_sym (r s : region) :
  regions_disjoint r s -> regions_disjoint s r.
Proof. unfold regions_disjoint. tauto. Qed.

Lemma regions_disjoint_within (r s r' s' : region) :
  regions_disjoint r s -> region_within r' r -> region_within s' s ->
  regions_disjoint r' s'.
Proof. unfold regions_disjoint, region_within. lia. Qed.

Lemma ForallOrdPairs_app_r {A : Type} (R : A -> A -> Prop) (pre l : list A) :
  ForallOrdPairs R (pre ++ l) -> ForallOrdPairs R l.
Proof.
  induction pre as [|x pre IH]; cbn; [auto|].
  intros H. inversion H; subst. auto.
Qed.

Lemma ForallOrdPairs_split {A : Type} (R : A -> A -> Prop) (pre : list A) (x : A)
    (post : list A) :
  ForallOrdPairs R (pre ++ x :: post) ->
  Forall (fun y => R y x) pre /\ Forall (R x) post.
Proof.
  induction pre as [|y pre IH]; cbn; intros H; inversion H; subst.
  - split; [constructor|assumption].
  - destruct (IH H3) as [H5 H6]. split; [|assumption].
    constructor; [|assumption].
    rewrite Forall_forall in H2. apply H2. apply in_or_app. right. now left.
Qed.

Lemma buffers_ok_app_r (pre bs : list region) :
  buffers_ok (pre ++ bs) -> buffers_ok bs.
Proof.
  intros [H1 H2]. split.
  - apply Forall_app in H1. tauto.
  - eapply ForallOrdPairs_app_r; eauto.
Qed.

Lemma chain_buffers_ok_wf (chain : list ArenaBlock) :
  chain_buffers_ok chain -> offsets_ok chain -> Forall block_wf chain.
Proof.
  intros [H1 _] H2. unfold offsets_ok in H2.
  rewrite Forall_map in H1. rewrite Forall_forall in *.
  intros b Hb. specialize (H1 b Hb). specialize (H2 b Hb).
  unfold block_wf. cbn [buffer fst snd] in H1. lia.
Qed.

(** *** The geometry of the chain only grows at the head *)

Lemma arena_block_alloc_raw_buffer (b : ArenaBlock) (n a p : Z) (b' : ArenaBlock) :
  arena_block_alloc_raw b n a = Ok (p, b') -> buffer b' = buffer b.
Proof.
  unfold arena_block_alloc_raw.
  destruct (arena_block_get_required _ n a); cbn [bind]; try discriminate.
  destruct (_ >? _); intros [= _ <-]; reflexivity.
Qed.

Lemma arena_alloc_search_buffers (chain : list ArenaBlock) (n a p : Z)
    (chain' : list ArenaBlock) :
  arena_alloc_search chain n a = Ok (p, chain') ->
  map buffer chain' = map buffer chain.
Proof.
  revert p chain'. induction chain as [|b next IH]; intros p chain';
    cbn [arena_alloc_search].
  - intros [= _ <-]. reflexivity.
  - destruct (arena_block_alloc_raw b n a) as [[q b']| |] eqn:Hb;
      cbn [bind]; try discriminate.
    apply arena_block_alloc_raw_buffer in Hb.
    destruct (negb (q =? NULL)).
    + intros [= _ <-]. cbn [map]. now rewrite Hb.
    + destruct (arena_alloc_search next n a) as [[r next']| |] eqn:Hs;
        cbn [bind]; try discriminate.
      intros [= _ <-]. cbn [map]. rewrite Hb. f_equal. eapply IH; eauto.
Qed.

Lemma arena_alloc_raw_buffers {Mem : Type} (fuel : nat) (ar : ArenaAllocator Mem)
    (n a : Z) (m : Mem) (p : Z) (ar' : ArenaAllocator Mem) (m' : Mem) :
  arena_alloc_raw fuel ar n a m = Ok (p, ar', m') ->
  exists pre, map buffer (head ar') = pre ++ map buffer (head ar).
Proof.
  revert ar m. induction fuel as [|fuel IH]; intros ar m;
    rewrite arena_alloc_raw_eq;
    (destruct (n =? 0); [intros [= _ <- _]; now exists []|]);
    (destruct (arena_alloc_search (head ar) n a) as [[q chain]| |] eqn:Hs;
       cbn [bind]; try discriminate);
    apply arena_alloc_search_buffers in Hs;
    (destruct (negb (q =? NULL));
       [intros [= _ <- _]; exists []; cbn [head set_head app]; assumption|]);
    (destruct (align_forward_size n a) as [c| |]; cbn [bind]; try discriminate);
    (destruct (arena_grow_capacity c) as [g| |]; cbn [bind]; try discriminate);
    unfold arena_push_block;
    (destruct (arena_block_create (set_head ar chain) g m) as [[blk|] m1]);
    try discriminate;
    try (intros [= _ <- _]; exists []; cbn [head set_head app]; assumption).
  intros H. apply IH in H. destruct H as (pre & ->).
  cbn [head set_head map]. rewrite Hs.
  exists (pre ++ [buffer blk]). rewrite <- app_assoc. reflexivity.
Qed.

Lemma arena_alloc_all_buffers {Mem : Type} (fuel : nat) (reqs : list (Z * Z))
    (ar : ArenaAllocator Mem) (m : Mem) (rs : list region)
    (ar' : ArenaAllocator Mem) (m' : Mem) :
  arena_alloc_all fuel ar reqs m = Ok (rs, ar', m') ->
  exists pre, map buffer (head ar') = pre ++ map buffer (head ar).
Proof.
  revert ar m rs ar' m'. induction reqs as [|[n a] rest IH]; intros ar m rs ar' m';
    cbn [arena_alloc_all].
  - intros [= _ <- _]. now exists [].
  - destruct (arena_alloc_raw fuel ar n a m) as [[[p ar1] m1]| |] eqn:H1;
      cbn [bind]; try discriminate.
    destruct (arena_alloc_all fuel ar1 rest m1) as [[[rs1 ar2] m2]| |] eqn:H2;
      cbn [bind]; try discriminate.
    intros [= _ <- _].
    apply arena_alloc_raw_buffers in H1. destruct H1 as (pre1 & E1).
    apply IH in H2. destruct H2 as (pre2 & ->).
    rewrite E1. exists (pre2 ++ pre1). now rewrite app_assoc.
Qed.

(** *** One search, one call, a sequence of calls *)

Lemma block_fits_cases (chain : list ArenaBlock) (n a : Z) :
  Forall (fun b => ~ block_fits b n a) chain \/
  exists pre b post,
    chain = pre ++ b :: post
    /\ Forall (fun x => ~ block_fits x n a) pre
    /\ block_fits b n a.
Proof.
  induction chain as [|b next IH].
  - left. constructor.
  - destruct (Z_le_dec (padding_of b a + n) (capacity b - offset b)) as [Hf|Hf].
    + right. exists [], b, next. repeat split; [constructor|exact Hf].
    + destruct IH as [IH|(pre & x & post & -> & Hpre & Hx)].
      * left. constructor; assumption.
      * right. exists (b :: pre), x, post. repeat split; [|assumption].
        constructor; assumption.
Qed.

Lemma free_part_within_buffer (b : ArenaBlock) :
  0 <= offset b <= capacity b -> region_within (free_part b) (buffer b).
Proof. unfold region_within, free_part, buffer. cbn [fst snd]. lia. Qed.

Lemma arena_alloc_search_step (chain : list ArenaBlock) (n a p : Z)
    (chain' : list ArenaBlock) (rs : list region) :
  0 < n -> 0 < a -> n + a <= word_modulus ->
  chain_buffers_ok chain -> offsets_ok chain -> live_ok chain rs ->
  arena_alloc_search chain n a = Ok (p, chain') ->
  offsets_ok chain' /\ live_ok chain' rs /\
  ((p = NULL /\ chain' = chain) \/
   (p <> NULL /\ Forall (regions_disjoint (p, n)) rs /\ live_ok chain' [(p, n)])).
Proof.
  intros Hn Ha Hna Hbuf Hoff Hlive Hs.
  pose proof (chain_buffers_ok_wf chain Hbuf Hoff) as Hwf.
  destruct (block_fits_cases chain n a) as [Hnf|(pre & b & post & -> & Hpre & Hb)].
  - rewrite arena_alloc_search_rejects in Hs by assumption.
    injection Hs as <- <-. auto.
  - apply Forall_app in Hwf. destruct Hwf as [Hwpre Hwrest].
    inversion Hwrest as [|? ? Hwb Hwpost]; subst.
    rewrite arena_alloc_search_first_fit in Hs by assumption.
    injection Hs as <- <-.
    pose proof (padding_of_range b a Ha) as Hpad.
    pose proof (aligned_cursor_lower b a Hwb Ha) as Hlow.
    destruct Hwb as (Hd & Ho & Hc). unfold block_fits in Hb.
    set (b' := block_commit b n a).
    assert (Hb'o : offset b' = offset b + padding_of b a + n) by reflexivity.
    assert (Hb'b : buffer b' = buffer b) by reflexivity.
    assert (Hnew : region_within (aligned_cursor b a, n) (free_part b)).
    { unfold region_within, free_part, aligned_cursor. cbn [fst snd]. lia. }
    assert (Hshrink : region_within (free_part b') (free_part b)).
    { unfold region_within, free_part. rewrite Hb'o.
      change (data b') with (data b). change (capacity b') with (capacity b).
      cbn [fst snd]. lia. }
    apply Forall_app in Hoff. destruct Hoff as [Hopre Hoffrest].
    inversion Hoffrest as [|? ? Hob Hopost]; subst.
    (* the buffers before and after [b] are away from the buffer of [b] *)
    destruct Hbuf as [_ Hdisj]. unfold pairwise_disjoint in Hdisj.
    rewrite map_app in Hdisj. cbn [map] in Hdisj.
    apply ForallOrdPairs_split in Hdisj. destruct Hdisj as [Hdpre Hdpost].
    rewrite Forall_map in Hdpre, Hdpost.
    split; [|split].
    + apply Forall_app. split; [assumption|]. constructor; [|assumption].
      rewrite Hb'o. change (capacity b') with (capacity b). lia.
    + unfold live_ok in *. rewrite Forall_forall in *. intros r Hr.
      destruct (Hlive r Hr) as [(b0 & Hin & Hw) Hfree]. split.
      * apply in_app_or in Hin. destruct Hin as [Hin|[<-|Hin]].
        -- exists b0. split; [apply in_or_app; now left|assumption].
        -- exists b'. split; [apply in_or_app; right; now left|].
           rewrite Hb'b. assumption.
        -- exists b0. split; [apply in_or_app; right; now right|assumption].
      * apply Forall_app in Hfree. destruct Hfree as [Fpre Frest].
        inversion Frest as [|? ? Fb Fpost]; subst.
        apply Forall_app. split; [assumption|]. constructor; [|assumption].
        eapply regions_disjoint_within; [exact Fb| |exact Hshrink].
        unfold region_within. lia.
    + right. split; [unfold NULL; lia|]. split.
      * unfold live_ok in Hlive. rewrite Forall_forall in *. intros r Hr.
        destruct (Hlive r Hr) as [_ Hfree].
        apply Forall_app in Hfree. destruct Hfree as [_ Frest].
        inversion Frest as [|? ? Fb _]; subst.
        apply regions_disjoint_sym.
        eapply regions_disjoint_within; [exact Fb| |exact Hnew].
        unfold region_within. lia.
      * constructor; [|constructor]. split.
        -- exists b'. split; [apply in_or_app; right; now left|].
           rewrite Hb'b. unfold region_within, buffer, aligned_cursor.
           cbn [fst snd]. lia.
        -- assert (Hnb : region_within (aligned_cursor b a, n) (buffer b)).
           { unfold region_within, buffer, aligned_cursor. cbn [fst snd]. lia. }
           apply Forall_app. split; [|constructor].
           ++ rewrite Forall_forall in *. intros c Hc'.
              apply regions_disjoint_sym.
              eapply regions_disjoint_within;
                [exact (Hdpre c Hc')| |exact Hnb].
              apply free_part_within_buffer. auto.
           ++ unfold regions_disjoint, free_part, aligned_cursor. rewrite Hb'o.
              change (data b') with (data b). cbn [fst snd]. lia.
           ++ rewrite Forall_forall in *. intros c Hc'.
              eapply regions_disjoint_within;
                [exact (Hdpost c Hc')|exact Hnb|].
              apply free_part_within_buffer. auto.
Qed.

Lemma arena_block_create_fresh {Mem : Type} (ar : ArenaAllocator Mem) (cap : Z)
    (m : Mem) (blk : ArenaBlock) (m' : Mem) :
  arena_block_create ar cap m = (Some blk, m') ->
  offset blk = 0 /\ capacity blk = cap /\ data blk <> NULL.
Proof.
  unfold arena_block_create.
  destruct (mem_alloc ar NULL sizeof_ArenaBlock m) as [p m1].
  destruct (p =? NULL); [discriminate|].
  destruct (mem_alloc ar NULL cap m1) as [d m2].
  destruct (Z.eqb_spec d NULL); [discriminate|].
  intros [= <- _]. auto.
Qed.

Lemma live_ok_push (blk : ArenaBlock) (chain : list ArenaBlock) (rs : list region) :
  chain_buffers_ok (blk :: chain) -> offset blk = 0 ->
  live_ok chain rs -> live_ok (blk :: chain) rs.
Proof.
  intros [Hr Hd] Ho Hlive. cbn [map] in Hr, Hd.
  inversion Hr as [|? ? (_ & Hcap & _) _]; subst.
  inversion Hd as [|? ? Hblk _]; subst. rewrite Forall_map in Hblk.
  unfold live_ok in *. rewrite Forall_forall in *. intros r Hin.
  destruct (Hlive r Hin) as [(b0 & Hb0 & Hw) Hfree]. split.
  - exists b0. split; [now right|assumption].
  - constructor; [|assumption].
    eapply regions_disjoint_within;
      [apply regions_disjoint_sym; exact (Hblk b0 Hb0)|exact Hw|].
    apply free_part_within_buffer. cbn [buffer snd] in Hcap. lia.
Qed.

Lemma arena_alloc_raw_step {Mem : Type} (fuel : nat) (ar : ArenaAllocator Mem)
    (n a : Z) (m : Mem) (p : Z) (ar' : ArenaAllocator Mem) (m' : Mem)
    (rs : list region) :
  0 <= n -> 0 < a -> n + a <= word_modulus ->
  arena_alloc_raw fuel ar n a m = Ok (p, ar', m') ->
  chain_buffers_ok (head ar') -> offsets_ok (head ar) -> live_ok (head ar) rs ->
  offsets_ok (head ar') /\ live_ok (head ar') rs /\
  (p <> NULL -> Forall (regions_disjoint (p, n)) rs /\ live_ok (head ar') [(p, n)]).
Proof.
  intros Hn Ha Hna. revert ar m.
  induction fuel as [|fuel IH]; intros ar m H Hfinal Hoff Hlive;
    pose proof (arena_alloc_raw_buffers _ _ _ _ _ _ _ _ H) as (pre0 & Epre0);
    assert (Hbuf : chain_buffers_ok (head ar))
      by (unfold chain_buffers_ok in *; rewrite Epre0 in Hfinal;
          eapply buffers_ok_app_r; eauto);
    rewrite arena_alloc_raw_eq in H;
    (destruct (Z.eqb_spec n 0) as [E0|E0];
       [injection H as <- <- <-; repeat split; auto; congruence|]);
    (destruct (arena_alloc_search (head ar) n a) as [[q chain]| |] eqn:Hs;
       cbn [bind] in H; try discriminate);
    assert (Hn' : 0 < n) by lia;
    (destruct (arena_alloc_search_step _ _ _ _ _ rs Hn' Ha Hna Hbuf Hoff Hlive Hs)
       as (Hoff1 & Hlive1 & Hcase));
    (destruct (Z.eqb_spec q NULL) as [Eq|Eq]; cbn [negb] in H;
       [|injection H as <- <- <-; cbn [head set_head];
         destruct Hcase as [[? _]|[_ ?]]; [contradiction|]; repeat split; tauto]);
    (destruct (align_forward_size n a) as [c| |]; cbn [bind] in H; try discriminate);
    (destruct (arena_grow_capacity c) as [g| |]; cbn [bind] in H; try discriminate);
    unfold arena_push_block in H;
    (destruct (arena_block_create (set_head ar chain) g m) as [[blk|] m1] eqn:Hc);
    try discriminate;
    try (injection H as <- <- <-; cbn [head set_head]; repeat split; auto;
         congruence).
  pose proof (arena_alloc_raw_buffers _ _ _ _ _ _ _ _ H) as (pre1 & Epre1).
  cbn [head set_head] in Epre1.
  assert (Hbuf1 : chain_buffers_ok (blk :: chain)).
  { unfold chain_buffers_ok in *. rewrite Epre1 in Hfinal.
    eapply buffers_ok_app_r; eauto. }
  destruct (arena_block_create_fresh _ _ _ _ _ Hc) as (Hboff & Hbcap & _).
  apply (IH _ _ H Hfinal).
  - cbn [head set_head]. constructor; [|assumption].
    destruct Hbuf1 as [Hr _]. cbn [map] in Hr.
    inversion Hr as [|? ? (_ & Hcap & _) _]; subst.
    cbn [buffer snd] in Hcap. lia.
  - cbn [head set_head]. now apply live_ok_push.
Qed.

Lemma live_ok_app (chain : list ArenaBlock) (rs rs' : list region) :
  live_ok chain rs -> live_ok chain rs' -> live_ok chain (rs ++ rs').
Proof. intros H H'. apply Forall_app. now split. Qed.

Lemma arena_alloc_all_step {Mem : Type} (fuel : nat) (reqs : list (Z * Z))
    (ar : ArenaAllocator Mem) (m : Mem) (rs : list region)
    (ar' : ArenaAllocator Mem) (m' : Mem) (rs0 : list region) :
  Forall request_ok reqs ->
  arena_alloc_all fuel ar reqs m = Ok (rs, ar', m') ->
  chain_buffers_ok (head ar') -> offsets_ok (head ar) -> live_ok (head ar) rs0 ->
  pairwise_disjoint rs /\ Forall (fun r => Forall (regions_disjoint r) rs0) rs.
Proof.
  revert ar m rs ar' m' rs0.
  induction reqs as [|[n a] rest IH]; intros ar m rs ar' m' rs0 Hreq;
    cbn [arena_alloc_all].
  - intros [= <- _ _] _ _ _. split; constructor.
  - inversion Hreq as [|? ? (Hn & Ha & Hna) Hrest]; subst. cbn [fst snd] in *.
    destruct (arena_alloc_raw fuel ar n a m) as [[[p ar1] m1]| |] eqn:H1;
      cbn [bind]; try discriminate.
    destruct (arena_alloc_all fuel ar1 rest m1) as [[[rs1 ar2] m2]| |] eqn:H2;
      cbn [bind]; try discriminate.
    intros [= <- <- <-] Hfinal Hoff Hlive.
    pose proof (arena_alloc_all_buffers _ _ _ _ _ _ _ H2) as (pre & Epre).
    assert (Hbuf1 : chain_buffers_ok (head ar1)).
    { unfold chain_buffers_ok in *. rewrite Epre in Hfinal.
      eapply buffers_ok_app_r; eauto. }
    destruct (arena_alloc_raw_step _ _ _ _ _ _ _ _ rs0 Hn Ha Hna H1 Hbuf1 Hoff Hlive)
      as (Hoff1 & Hlive1 & Hnew).
    destruct (Z.eqb_spec p NULL) as [Ep|Ep].
    + eapply IH; eauto.
    + destruct (Hnew Ep) as [Hdisj Hlivep].
      destruct (IH _ _ _ _ _ ((p, n) :: rs0) Hrest H2 Hfinal Hoff1) as [Hpd Hold].
      { apply (live_ok_app _ [(p, n)] rs0); assumption. }
      split.
      * constructor; [|assumption].
        rewrite Forall_forall in *. intros r Hr.
        specialize (Hold r Hr). inversion Hold; subst.
        now apply regions_disjoint_sym.
      * constructor; [assumption|].
        rewrite Forall_forall in *. intros r Hr.
        specialize (Hold r Hr). inversion Hold; subst. assumption.
Qed.

(** ** The cursor invariant

    Whatever the request, wrapping or not, every operation keeps the cursor
    of every block inside its buffer: [0 <= offset <= capacity] holds in
    every state reached from [arena_create]. *)

Lemma arena_block_alloc_raw_cursor_ok (b : ArenaBlock) (n a p : Z) (b' : ArenaBlock) :
  cursor_ok b -> arena_block_alloc_raw b n a = Ok (p, b') -> cursor_ok b'.
Proof.
  intros [Ho Hc]. unfold arena_block_alloc_raw.
  destruct (arena_block_get_required _ n a) as [r| |] eqn:Hr;
    cbn [bind]; try discriminate.
  assert (Hr0 : 0 <= r < word_modulus).
  { unfold arena_block_get_required in Hr.
    destruct (align_forward_ptr _ a); cbn [bind] in Hr; try discriminate.
    injection Hr as <-. apply wrap_range. }
  rewrite Z.gtb_ltb.
  destruct (Z.ltb_spec
    (wsub (capacity b) (wsub (wadd (data b) (offset b)) (data b))) r) as [L|L];
    intros [= _ <-]; [split; assumption|].
  unfold cursor_ok. cbn [set_offset offset capacity].
  revert L. word_lia.
Qed.

Lemma arena_alloc_search_cursor_ok (chain : list ArenaBlock) (n a p : Z)
    (chain' : list ArenaBlock) :
  Forall cursor_ok chain -> arena_alloc_search chain n a = Ok (p, chain') ->
  Forall cursor_ok chain'.
Proof.
  revert p chain'. induction chain as [|b next IH]; intros p chain' Hok;
    cbn [arena_alloc_search].
  - intros [= _ <-]. constructor.
  - inversion Hok as [|? ? Hb Hnext]; subst.
    destruct (arena_block_alloc_raw b n a) as [[q b']| |] eqn:Hq;
      cbn [bind]; try discriminate.
    apply arena_block_alloc_raw_cursor_ok in Hq; [|assumption].
    destruct (negb (q =? NULL)).
    + intros [= _ <-]. constructor; assumption.
    + destruct (arena_alloc_search next n a) as [[r next']| |] eqn:Hs;
        cbn [bind]; try discriminate.
      intros [= _ <-]. constructor; [assumption|]. eapply IH; eauto.
Qed.

Lemma arena_grow_capacity_range (c g : Z) :
  arena_grow_capacity c = Ok g -> 0 <= g < word_modulus.
Proof.
  unfold arena_grow_capacity, double_to_size_t.
  destruct (SFmul prec emax (size_t_to_double c) ARENA_GROW_FACTOR)
    as [s|s| |s m e]; try discriminate.
  - intros [= <-]. split; [lia|apply word_modulus_pos].
  - set (t := if 0 <=? e then Zpos m * 2 ^ e else Zpos m / 2 ^ (- e)).
    assert (Ht : 0 <= t).
    { subst t. destruct (Z.leb_spec 0 e).
      - apply Z.mul_nonneg_nonneg; [lia|]. apply Z.pow_nonneg. lia.
      - apply Z.div_pos; [lia|]. apply Z.pow_pos_nonneg; lia. }
    destruct s.
    + destruct (t =? 0); [|discriminate]. intros [= <-].
      split; [lia|apply word_modulus_pos].
    + destruct (Z.ltb_spec t word_modulus); [|discriminate].
      intros [= <-]. lia.
Qed.

Lemma arena_alloc_raw_cursor_ok {Mem : Type} (fuel : nat) (ar : ArenaAllocator Mem)
    (n a : Z) (m : Mem) (p : Z) (ar' : ArenaAllocator Mem) (m' : Mem) :
  Forall cursor_ok (head ar) ->
  arena_alloc_raw fuel ar n a m = Ok (p, ar', m') ->
  Forall cursor_ok (head ar').
Proof.
  revert ar m. induction fuel as [|fuel IH]; intros ar m Hok;
    rewrite arena_alloc_raw_eq;
    (destruct (n =? 0); [intros [= _ <- _]; assumption|]);
    (destruct (arena_alloc_search (head ar) n a) as [[q chain]| |] eqn:Hs;
       cbn [bind]; try discriminate);
    apply arena_alloc_search_cursor_ok in Hs; try assumption;
    (destruct (negb (q =? NULL)); [intros [= _ <- _]; assumption|]);
    (destruct (align_forward_size n a) as [c| |]; cbn [bind]; try discriminate);
    (destruct (arena_grow_capacity c) as [g| |] eqn:Hg; cbn [bind];
       try discriminate);
    unfold arena_push_block;
    (destruct (arena_block_create (set_head ar chain) g m) as [[blk|] m1] eqn:Hc);
    try discriminate;
    try (intros [= _ <- _]; assumption).
  apply IH. cbn [head set_head]. constructor; [|assumption].
  destruct (arena_block_create_fresh _ _ _ _ _ Hc) as (Ho & Hcap & _).
  pose proof (arena_grow_capacity_range _ _ Hg).
  unfold cursor_ok. rewrite Ho, Hcap. lia.
Qed.

Lemma arena_create_cursor_ok {Mem : Type} (malloc : Z -> Mem -> Z * Mem)
    (free : Z -> Mem -> Mem) (ap : option (ArenaMemAllocProc Mem))
    (fp : option (ArenaMemFreeProc Mem)) (cap : Z) (m : Mem) :
  0 <= cap < word_modulus ->
  Forall cursor_ok (head (fst (arena_create malloc free ap fp cap m))).
Proof.
  intros Hcap. unfold arena_create.
  destruct (arena_block_create _ cap m) as [[blk|] m1] eqn:Hc;
    cbn [fst head set_head]; constructor; [|constructor].
  destruct (arena_block_create_fresh _ _ _ _ _ Hc) as (Ho & Hc' & _).
  unfold cursor_ok. rewrite Ho, Hc'. lia.
Qed.

Lemma arena_reset_cursor_ok {Mem : Type} (ar ar' : ArenaAllocator Mem) :
  Forall cursor_ok (head ar) -> arena_reset ar = Ok ar' ->
  Forall cursor_ok (head ar').
Proof.
  unfold arena_reset. destruct (head ar) as [|cur next]; [discriminate|].
  intros Hok [= <-]. cbn [head set_head]. rewrite arena_reset_from_map.
  rewrite Forall_map. eapply Forall_impl; [|exact Hok].
  intros b [Ho Hc]. unfold cursor_ok. cbn [set_offset offset capacity]. lia.
Qed.

(** ** The concrete arenas are states the code reaches *)

Example ARENA_GROW_FACTOR_is_1_15 :
  SFdiv prec emax (size_t_to_double 115) (size_t_to_double 100) = ARENA_GROW_FACTOR.
Proof. vm_compute. reflexivity. Qed.

Example used_arena_reached :
  (let '(ar, m) := pool_create 200 pool0 in arena_alloc_raw 0 ar 1 1 m)
  = Ok (4128, used_arena, used_pool).
Proof. vm_compute. reflexivity. Qed.

Example small_arena_reached :
  pool_create 8 pool0 = (small_arena, small_pool 1000000)
  /\ pool_create 8 {| pool_next := 4096; pool_limit := 4230 |}
     = (small_arena, small_pool 4230)
  /\ pool_create 8 {| pool_next := 4096; pool_limit := 4150 |}
     = (small_arena, small_pool 4150).
Proof. repeat split; vm_compute; reflexivity. Qed.

(** The run of [test.c]: 49 [int]s, two more, a reset, then 30 [int]s that
    land in the older block while the block count stays at two. *)
Example test_run :
  (let '(ar, m) := pool_create 200 pool0 in
   '(numbers, ar, m) <- arena_alloc_raw 1 ar (4 * 49) 4 m ;;
   '(num0, ar, m) <- arena_alloc_raw 1 ar 4 4 m ;;
   '(num1, ar, m) <- arena_alloc_raw 1 ar 4 4 m ;;
   let full := ar in
   ar <- arena_reset ar ;;
   '(num2, ar', m') <- arena_alloc_raw 1 ar (4 * 30) 4 m ;;
   Ok (numbers, num0, num1, arena_block_count full, head full, head ar, m,
       num2, arena_block_count ar'))
  = Ok (4128, 4324, 4368, 2, head full_arena, head test_arena, test_pool,
        4128, 2).
Proof. vm_compute. reflexivity. Qed.

(** An alignment of 16 from every offset from 0 to 17. *)
Example boundary_sweep :
  map (fun o =>
         match arena_block_alloc_raw
                 {| addr := 4096; data := 4128; offset := o; capacity := 200 |} 8 16
         with
         | Ok (p, _) => p mod 16
         | _ => -1
         end)
      [0; 1; 2; 3; 4; 5; 6; 7; 8; 9; 10; 11; 12; 13; 14; 15; 16; 17]
  = [0; 0; 0; 0; 0; 0; 0; 0; 0; 0; 0; 0; 0; 0; 0; 0; 0; 0].
Proof. vm_compute. reflexivity. Qed.

(** ** Alignment of the returned address *)

(** C1. Whatever the arena, a call [arena_alloc_raw ar nbytes alignment] with
    [nbytes > 0] and [alignment] a power of two that returns a non-null
    pointer returns a multiple of [alignment]. *)
Theorem arena_alloc_raw_aligned {Mem : Type} (fuel : nat) (ar : ArenaAllocator Mem)
    (nbytes alignment : Z) (m : Mem) (p : Z) (ar' : ArenaAllocator Mem) (m' : Mem) :
  0 < nbytes ->
  is_pow2 alignment ->
  arena_alloc_raw fuel ar nbytes alignment m = Ok (p, ar', m') ->
  p <> NULL ->
  p mod alignment = 0.
Proof.
  intros Hn Ha H _.
  pose proof (is_pow2_pos _ Ha) as Hpos.
  pose proof (is_pow2_divide _ Ha) as Hdiv.
  revert ar m H. induction fuel as [|fuel IH]; intros ar m;
    rewrite arena_alloc_raw_eq;
    (destruct (nbytes =? 0);
     [intros [= <- <- <-]; apply Z.mod_0_l; lia|]);
    (destruct (arena_alloc_search (head ar) nbytes alignment)
       as [[q chain]| |] eqn:Hs; cbn [bind]; try discriminate);
    (destruct (q =? NULL); cbn [negb];
     [|intros [= <- <- <-]; eapply arena_alloc_search_multiple; eauto]);
    (destruct (align_forward_size nbytes alignment) as [c| |];
       cbn [bind]; try discriminate);
    (destruct (arena_grow_capacity c) as [g| |]; cbn [bind]; try discriminate);
    (destruct (arena_push_block (set_head ar chain) g m) as [[[] ar1] m1]);
    try discriminate;
    try (intros [= <- <- <-]; apply Z.mod_0_l; lia).
  apply IH.
Qed.

Lemma arena_alloc_raw_aligned_witness : 4368 mod 4 = 0.
Proof.
  apply (arena_alloc_raw_aligned 0 test_arena 4 4 test_pool 4368
           (set_head test_arena
              [{| addr := 4336; data := 4368; offset := 4; capacity := 4 |};
               {| addr := 4096; data := 4128; offset := 0; capacity := 200 |}])
           test_pool).
  - lia.
  - exists 2. split; [unfold word_bits; lia|reflexivity].
  - reflexivity.
  - unfold NULL. lia.
Defined.

(** ** Separation of the regions handed out *)

(** X14. Separation where the byte arithmetic cannot wrap.  Take any arena whose
    cursors are inside their buffers and any sequence of calls of
    [arena_alloc_raw] on it, with no reset in between, whose requests
    satisfy [nbytes + alignment <= 2^64]; let the memory provider be sound,
    that is, the buffers of the chain the calls end with are real and
    pairwise disjoint.  Then the regions [p, p + nbytes) of the calls that
    returned a non-null pointer are pairwise disjoint. *)
Theorem arena_alloc_regions_disjoint {Mem : Type} (fuel : nat)
    (ar : ArenaAllocator Mem) (reqs : list (Z * Z)) (m : Mem)
    (rs : list region) (ar' : ArenaAllocator Mem) (m' : Mem) :
  Forall request_ok reqs ->
  offsets_ok (head ar) ->
  arena_alloc_all fuel ar reqs m = Ok (rs, ar', m') ->
  chain_buffers_ok (head ar') ->
  pairwise_disjoint rs.
Proof.
  intros Hreq Hoff Hrun Hfinal.
  destruct (arena_alloc_all_step fuel reqs ar m rs ar' m' [] Hreq Hrun Hfinal Hoff)
    as [H _]; [constructor|exact H].
Qed.

Lemma arena_alloc_regions_disjoint_witness :
  pairwise_disjoint [(4128, 120); (4368, 4); (4248, 4); (4416, 100)].
Proof.
  apply (arena_alloc_regions_disjoint 1 test_arena
           [(120, 4); (4, 4); (0, 4); (4, 4); (100, 8)] test_pool
           [(4128, 120); (4368, 4); (4248, 4); (4416, 100)]
           (set_head test_arena
              [{| addr := 4384; data := 4416; offset := 100; capacity := 119 |};
               {| addr := 4336; data := 4368; offset := 4; capacity := 4 |};
               {| addr := 4096; data := 4128; offset := 124; capacity := 200 |}])
           {| pool_next := 4544; pool_limit := 1000000 |}).
  - repeat constructor; cbn; unfold word_modulus, word_bits; cbn; lia.
  - repeat constructor; cbn; lia.
  - vm_compute. reflexivity.
  - split; repeat constructor; cbn; unfold word_modulus, word_bits; cbn; lia.
Defined.

(** C2 (the code departs from it).  The regions of successful calls are
    meant to be pairwise disjoint, and they are not once a request makes
    [padding + nbytes] wrap: on [used_arena], an arena in good order over
    one sound buffer, a call for [2^64 - 1] bytes aligned to 8 and a call
    for 8 bytes aligned to 8 both succeed and both return the address
    4136. *)
Theorem arena_alloc_regions_overlap_on_wrap :
  offsets_ok (head used_arena)
  /\ arena_alloc_all 0 used_arena [(2 ^ 64 - 1, 8); (8, 8)] used_pool =
       Ok ([(4136, 2 ^ 64 - 1); (4136, 8)],
           set_head used_arena
             [{| addr := 4096; data := 4128; offset := 16; capacity := 200 |}],
           used_pool)
  /\ chain_buffers_ok [{| addr := 4096; data := 4128; offset := 16; capacity := 200 |}]
  /\ ~ pairwise_disjoint [(4136, 2 ^ 64 - 1); (4136, 8)].
Proof.
  split; [|split; [|split]].
  - repeat constructor; cbn; lia.
  - vm_compute. reflexivity.
  - split; repeat constructor; cbn; unfold word_modulus, word_bits; cbn; lia.
  - intros H. inversion H as [|? ? Hd _]; subst.
    inversion Hd as [|? ? Hr _]; subst.
    unfold regions_disjoint in Hr. cbn in Hr. lia.
Qed.

(** ** Growth *)




(** ** Wrap-around of the byte arithmetic *)

(** C4 (the code departs from it).  On the arena [used_arena], whose only
    block has 199 bytes left after one byte was allocated, a request for
    [2^64 - 1] bytes aligned to 8 makes [padding + nbytes] wrap to 6: the
    call does not fail, it returns the non-null address 4136 and moves the
    offset of the block from 1 to 7, although no block can hold the
    request. *)
Theorem arena_alloc_raw_wraps (fuel : nat) :
  arena_block_get_required 4129 (2 ^ 64 - 1) 8 = Ok 6
  /\ arena_alloc_raw fuel used_arena (2 ^ 64 - 1) 8 used_pool =
       Ok (4136,
           set_head used_arena
             [{| addr := 4096; data := 4128; offset := 7; capacity := 200 |}],
           used_pool).
Proof.
  split; [vm_compute; reflexivity|].
  rewrite arena_alloc_raw_eq. vm_compute. reflexivity.
Qed.

(** ** First fit *)

(** C5. [arena_alloc_raw] searches all the blocks from [head] on: when some
    block of the chain has enough aligned room, the call commits to the
    first such block in head-to-tail order, advances the offset of that
    block only, and reserves nothing, so the chain keeps its blocks and the
    memory provider its state.  The fitting block need not be the newest. *)
Theorem arena_alloc_raw_first_fit {Mem : Type} (fuel : nat) (ar : ArenaAllocator Mem)
    (nbytes alignment : Z) (m : Mem)
    (pre : list ArenaBlock) (b : ArenaBlock) (post : list ArenaBlock) :
  0 < nbytes -> 0 < alignment ->
  head ar = pre ++ b :: post ->
  Forall block_wf pre -> block_wf b ->
  Forall (fun x => ~ block_fits x nbytes alignment) pre ->
  block_fits b nbytes alignment ->
  arena_alloc_raw fuel ar nbytes alignment m =
  Ok (aligned_cursor b alignment,
      set_head ar (pre ++ block_commit b nbytes alignment :: post),
      m).
Proof.
  intros Hn Ha Hh Hwf Hb Hnf Hf.
  rewrite arena_alloc_raw_eq.
  destruct (Z.eqb_spec nbytes 0) as [|_]; [lia|].
  rewrite Hh, arena_alloc_search_first_fit by assumption. cbn [bind].
  pose proof (aligned_cursor_lower b alignment Hb Ha) as Hl.
  destruct (Z.eqb_spec (aligned_cursor b alignment) NULL) as [E|_];
    [unfold NULL in E; lia|reflexivity].
Qed.

Lemma arena_alloc_raw_first_fit_witness :
  arena_alloc_raw 0 test_arena 120 4 test_pool =
  Ok (4128,
      set_head test_arena
        [{| addr := 4336; data := 4368; offset := 0; capacity := 4 |};
         {| addr := 4096; data := 4128; offset := 120; capacity := 200 |}],
      test_pool).
Proof.
  apply (arena_alloc_raw_first_fit 0 test_arena 120 4 test_pool
           [{| addr := 4336; data := 4368; offset := 0; capacity := 4 |}]
           {| addr := 4096; data := 4128; offset := 0; capacity := 200 |}
           []).
  - lia.
  - lia.
  - reflexivity.
  - repeat constructor; cbn; unfold word_modulus, word_bits; cbn; lia.
  - repeat split; cbn; unfold word_modulus, word_bits; cbn; lia.
  - repeat constructor. unfold block_fits, padding_of. cbn. lia.
  - unfold block_fits, padding_of. cbn. lia.
Defined.

(** ** Failure of the reservation *)




(** ** Reset *)

(** C7. On an arena with at least one block, [arena_reset] is defined and
    sets the offset of every block to zero and nothing else: the chain has
    the same blocks in the same order (the same records, buffers and
    capacities, each followed by the same block), the procedures are the
    same, and [arena_block_count] and [arena_total_capacity] answer as
    before.  No buffer is written: the function stores to [offset] only. *)
Theorem arena_reset_offsets_only {Mem : Type} (ar : ArenaAllocator Mem) :
  head ar <> [] ->
  exists ar',
    arena_reset ar = Ok ar'
    /\ head ar' = map (fun b => set_offset b 0) (head ar)
    /\ Forall (fun b => offset b = 0) (head ar')
    /\ map addr (head ar') = map addr (head ar)
    /\ map data (head ar') = map data (head ar)
    /\ map capacity (head ar') = map capacity (head ar)
    /\ mem_alloc ar' = mem_alloc ar
    /\ mem_free ar' = mem_free ar
    /\ arena_block_count ar' = arena_block_count ar
    /\ arena_total_capacity ar' = arena_total_capacity ar.
Proof.
  intros Hne. unfold arena_reset.
  destruct (head ar) as [|cur next] eqn:Hh; [congruence|].
  eexists. split; [reflexivity|].
  cbn [head set_head mem_alloc mem_free]. rewrite arena_reset_from_map.
  unfold arena_block_count, arena_total_capacity. cbn [head set_head]. rewrite Hh.
  assert (Ha : forall l, map addr (map (fun b => set_offset b 0) l) = map addr l)
    by (intros l; rewrite map_map; reflexivity).
  assert (Hd : forall l, map data (map (fun b => set_offset b 0) l) = map data l)
    by (intros l; rewrite map_map; reflexivity).
  assert (Hc : forall l, map capacity (map (fun b => set_offset b 0) l) = map capacity l)
    by (intros l; rewrite map_map; reflexivity).
  repeat split; auto.
  - apply Forall_forall. intros b Hb. apply in_map_iff in Hb.
    destruct Hb as (x & <- & _). reflexivity.
  - apply arena_block_count_from_length. now rewrite length_map.
  - apply arena_total_capacity_from_map. apply Hc.
Qed.

Lemma arena_reset_offsets_only_witness :
  exists ar',
    arena_reset full_arena = Ok ar'
    /\ head ar' = map (fun b => set_offset b 0) (head full_arena)
    /\ Forall (fun b => offset b = 0) (head ar')
    /\ map addr (head ar') = map addr (head full_arena)
    /\ map data (head ar') = map data (head full_arena)
    /\ map capacity (head ar') = map capacity (head full_arena)
    /\ mem_alloc ar' = mem_alloc full_arena
    /\ mem_free ar' = mem_free full_arena
    /\ arena_block_count ar' = arena_block_count full_arena
    /\ arena_total_capacity ar' = arena_total_capacity full_arena.
Proof.
  apply (arena_reset_offsets_only full_arena).
  discriminate.
Defined.

(** ** Zero-size requests *)

(** C8. Whatever the arena and the alignment, [arena_alloc_raw] called with
    [nbytes = 0] returns [NULL] and touches nothing: the arena (its blocks
    and their offsets, hence the block count and the total capacity) and
    the memory provider are as before.  The call is defined also on an
    arena whose [head] is null and for an alignment of zero. *)
Theorem arena_alloc_raw_zero {Mem : Type} (fuel : nat) (ar : ArenaAllocator Mem)
    (alignment : Z) (m : Mem) :
  arena_alloc_raw fuel ar 0 alignment m = Ok (NULL, ar, m).
Proof. rewrite arena_alloc_raw_eq. reflexivity. Qed.

(** ** Creation *)

(** C9, as the code has it.  [arena_create] reserves one block of exactly
    the requested capacity, whatever it is (zero included: no minimum is
    applied): when the reservation succeeds the chain is that single block,
    with offset zero, and the block count is one; when it fails the arena
    comes back with a null [head], and [arena_block_count] and
    [arena_total_capacity] answer zero. *)
Theorem arena_create_result {Mem : Type} (malloc : Z -> Mem -> Z * Mem)
    (free : Z -> Mem -> Mem)
    (mem_alloc_proc : option (ArenaMemAllocProc Mem))
    (mem_free_proc : option (ArenaMemFreeProc Mem)) (cap : Z) (m : Mem) :
  let ar0 :=
    mkArena
      (match mem_alloc_proc with
       | None => arena_default_mem_alloc Mem malloc | Some f => f end)
      (match mem_free_proc with
       | None => arena_default_mem_free Mem free | Some f => f end)
      [] in
  let created := arena_create malloc free mem_alloc_proc mem_free_proc cap m in
  (reserve_fails ar0 cap m
   /\ fst created = ar0
   /\ head (fst created) = []
   /\ arena_block_count (fst created) = 0
   /\ arena_total_capacity (fst created) = 0)
  \/
  (~ reserve_fails ar0 cap m
   /\ exists blk d,
        blk <> NULL /\ d <> NULL
        /\ head (fst created) =
             [{| addr := blk; data := d; offset := 0; capacity := cap |}]
        /\ arena_block_count (fst created) = 1
        /\ arena_total_capacity (fst created) = wrap cap).
Proof.
  intros ar0 created.
  assert (Hdec : reserve_fails ar0 cap m \/ ~ reserve_fails ar0 cap m).
  { unfold reserve_fails.
    destruct (Z.eq_dec (fst (mem_alloc ar0 NULL sizeof_ArenaBlock m)) NULL);
      [tauto|].
    destruct (Z.eq_dec
      (fst (mem_alloc ar0 NULL cap (snd (mem_alloc ar0 NULL sizeof_ArenaBlock m))))
      NULL); tauto. }
  destruct Hdec as [Hf|Hs].
  - left. split; [assumption|].
    destruct (arena_block_create_fails ar0 cap m Hf) as (m' & E).
    subst created. unfold arena_create. fold ar0. rewrite E.
    cbn [fst]. repeat split.
  - right. split; [assumption|].
    destruct (arena_block_create_succeeds ar0 cap m Hs)
      as (blk & d & m' & E & Hb & Hd & _).
    subst created. unfold arena_create. fold ar0. rewrite E.
    cbn [fst]. exists blk, d. repeat split; assumption.
Qed.

(** C9 as stated fails for a requested capacity of zero: no minimum is
    applied, the request goes to [mem_alloc] as it is and, with a provider
    that serves it, the arena has one block of capacity zero. *)
Lemma arena_create_zero_capacity :
  head (fst (pool_create 0 pool0)) =
    [{| addr := 4096; data := 4128; offset := 0; capacity := 0 |}]
  /\ arena_block_count (fst (pool_create 0 pool0)) = 1
  /\ arena_total_capacity (fst (pool_create 0 pool0)) = 0.
Proof. repeat split; vm_compute; reflexivity. Qed.

(** ** A null head *)

(** C10. [arena_reset] and [arena_destroy] read [head->next] before any
    test, so they have a defined result exactly when [head] is not null: on
    an arena whose [head] is null the first loop condition dereferences a
    null pointer.  [arena_block_count] and [arena_total_capacity] test
    [head] first and answer [0] there. *)
Theorem null_head_behaviour {Mem : Type} (ar : ArenaAllocator Mem) (m : Mem) :
  (arena_reset ar = Undefined <-> head ar = [])
  /\ (arena_destroy ar m = Undefined <-> head ar = [])
  /\ arena_block_count (set_head ar []) = 0
  /\ arena_total_capacity (set_head ar []) = 0.
Proof.
  unfold arena_reset, arena_destroy.
  destruct (head ar) as [|cur next]; repeat split;
    try reflexivity; try discriminate.
Qed.

(** * Further properties of [arena.h] *)

(** ** The queries and [arena_push_block] *)

Lemma arena_block_count_from_length_acc (chain : list ArenaBlock) (total : Z) :
  0 <= total < word_modulus ->
  arena_block_count_from chain total = wrap (total + Z.of_nat (length chain)).
Proof.
  revert total. induction chain as [|b next IH]; intros total Ht.
  - cbn [arena_block_count_from length Z.of_nat]. rewrite Z.add_0_r.
    symmetry. now apply wrap_small.
  - cbn [arena_block_count_from length]. rewrite IH by apply wrap_range.
    unfold wadd, wrap. rewrite Zplus_mod_idemp_l. f_equal. lia.
Qed.

Lemma arena_total_capacity_from_sum_acc (chain : list ArenaBlock) (total : Z) :
  0 <= total < word_modulus ->
  arena_total_capacity_from chain total = wrap (total + capacity_sum chain).
Proof.
  revert total. induction chain as [|b next IH]; intros total Ht.
  - cbn [arena_total_capacity_from capacity_sum fold_right]. rewrite Z.add_0_r.
    symmetry. now apply wrap_small.
  - cbn [arena_total_capacity_from capacity_sum fold_right].
    rewrite IH by apply wrap_range. fold (capacity_sum next).
    unfold wadd, wrap. rewrite Zplus_mod_idemp_l. f_equal. lia.
Qed.

Lemma zero_is_word : 0 <= 0 < word_modulus.
Proof. split; [lia|apply word_modulus_pos]. Qed.

(** X1. The queries walk the whole chain: [arena_block_count] is the number
    of blocks and [arena_total_capacity] the sum of their capacities, both
    as [size_t] values, that is modulo [2^64]: a total past [2^64 - 1]
    comes back wrapped. *)
Theorem arena_queries_walk {Mem : Type} (ar : ArenaAllocator Mem) :
  arena_block_count ar = wrap (Z.of_nat (length (head ar)))
  /\ arena_total_capacity ar = wrap (capacity_sum (head ar)).
Proof.
  unfold arena_block_count, arena_total_capacity. split.
  - now rewrite arena_block_count_from_length_acc by apply zero_is_word.
  - now rewrite arena_total_capacity_from_sum_acc by apply zero_is_word.
Qed.

(** X2. [arena_push_block] has two outcomes and no third.  If the
    reservation fails it returns [false] and the arena is the one it was
    given.  Otherwise it returns [true] and the chain is the old chain
    behind one new block, which is empty, has exactly the capacity asked
    for and non-null record and buffer; the block count is one more and the
    total capacity [cap] more (as [size_t] values). *)
Theorem arena_push_block_outcomes {Mem : Type} (ar : ArenaAllocator Mem) (cap : Z)
    (m : Mem) :
  let '(ok, ar', m') := arena_push_block ar cap m in
  (ok = false /\ reserve_fails ar cap m /\ ar' = ar)
  \/
  (ok = true /\ ~ reserve_fails ar cap m
   /\ mem_alloc ar' = mem_alloc ar /\ mem_free ar' = mem_free ar
   /\ (exists blk,
         head ar' = blk :: head ar
         /\ addr blk <> NULL /\ data blk <> NULL
         /\ offset blk = 0 /\ capacity blk = cap)
   /\ arena_block_count ar' = wadd (arena_block_count ar) 1
   /\ arena_total_capacity ar' = wadd (arena_total_capacity ar) cap).
Proof.
  unfold arena_push_block.
  assert (Hdec : reserve_fails ar cap m \/ ~ reserve_fails ar cap m).
  { unfold reserve_fails.
    destruct (Z.eq_dec (fst (mem_alloc ar NULL sizeof_ArenaBlock m)) NULL);
      [tauto|].
    destruct (Z.eq_dec
      (fst (mem_alloc ar NULL cap (snd (mem_alloc ar NULL sizeof_ArenaBlock m))))
      NULL); tauto. }
  destruct Hdec as [Hf|Hs].
  - destruct (arena_block_create_fails ar cap m Hf) as (m' & ->).
    left. auto.
  - destruct (arena_block_create_succeeds ar cap m Hs)
      as (blk & d & m' & -> & Hb & Hd & _).
    right. split; [reflexivity|]. split; [assumption|].
    cbn [set_head mem_alloc mem_free head]. split; [reflexivity|].
    split; [reflexivity|]. split.
    + eexists. split; [reflexivity|]. cbn [addr data offset capacity]. auto.
    + unfold arena_block_count, arena_total_capacity. cbn [head].
      rewrite !arena_block_count_from_length_acc by apply zero_is_word.
      rewrite !arena_total_capacity_from_sum_acc by apply zero_is_word.
      cbn [head set_head length capacity_sum fold_right capacity].
      fold (capacity_sum (head ar)). rewrite Nat2Z.inj_succ.
      unfold wadd, wrap. rewrite !Zplus_mod_idemp_l. split; f_equal; lia.
Qed.

(** ** Alignment and the size of a grown block *)

Lemma next_multiple_least (p a q' : Z) :
  0 < a -> p <= q' -> q' mod a = 0 -> p + (- p) mod a <= q'.
Proof.
  intros Ha Hq' Hm.
  destruct (mod_opp_cases p a Ha) as [[E1 E2]|[E1 E2]]; rewrite E2; [lia|].
  apply Z.mod_divide in Hm; [|lia]. destruct Hm as [k ->].
  pose proof (Z.div_mod p a ltac:(lia)) as Hdiv.
  assert (p / a < k) by nia. nia.
Qed.

(** X3. [align_forward_ptr] and [align_forward_size] return the least
    multiple of [a] that is not below [p], as a word: when that multiple
    is [2^64] or more, what comes back is wrapped modulo [2^64].  This
    holds for every [a > 0], power of two or not. *)
Theorem align_forward_least (p a : Z) :
  0 <= p < word_modulus -> 0 < a < word_modulus ->
  let q := p + (- p) mod a in
  align_forward_ptr p a = Ok (wrap q)
  /\ align_forward_size p a = Ok (wrap q)
  /\ q mod a = 0
  /\ p <= q < p + a
  /\ (forall q', p <= q' -> q' mod a = 0 -> q <= q').
Proof.
  intros Hp Ha q.
  assert (Hq : align_forward_ptr p a = Ok (wrap q)).
  { unfold align_forward_ptr. destruct (Z.eqb_spec a 0) as [|_]; [lia|].
    rewrite Z.gtb_ltb. f_equal. subst q.
    destruct (mod_opp_cases p a) as [[E1 E2]|[E1 E2]]; [lia| |]; rewrite E2.
    - destruct (Z.ltb_spec 0 (p mod a)); [lia|].
      rewrite Z.add_0_r. symmetry. now apply wrap_small.
    - destruct (Z.ltb_spec 0 (p mod a)); [|lia].
      unfold wadd, wsub, wrap. rewrite Zplus_mod_idemp_r. reflexivity. }
  split; [exact Hq|]. split; [exact Hq|].
  pose proof (Z.mod_pos_bound (- p) a ltac:(lia)) as Hpad.
  split; [|split; [subst q; lia|]].
  - subst q. rewrite Zplus_mod_idemp_r, Z.add_opp_diag_r. apply Z.mod_0_l. lia.
  - intros q' Hq' Hm. subst q. apply next_multiple_least; [lia|assumption..].
Qed.

Lemma align_forward_least_witness :
  align_forward_ptr 4129 8 = Ok (wrap (4129 + (- 4129) mod 8))
  /\ align_forward_size 4129 8 = Ok (wrap (4129 + (- 4129) mod 8))
  /\ (4129 + (- 4129) mod 8) mod 8 = 0
  /\ 4129 <= 4129 + (- 4129) mod 8 < 4129 + 8
  /\ (forall q', 4129 <= q' -> q' mod 8 = 0 -> 4129 + (- 4129) mod 8 <= q').
Proof.
  apply (align_forward_least 4129 8).
  - unfold word_modulus, word_bits. cbn. lia.
  - unfold word_modulus, word_bits. cbn. lia.
Defined.

(** What the rounded product is made of: the size [c] as a [double] with
    mantissa [mz] and exponent [52 - E], and the truncated product [t]. *)
Lemma arena_grow_capacity_core (c : Z) :
  0 < c < 2 ^ 63 ->
  exists mz E t,
    2 ^ 52 <= mz < 2 ^ 53
    /\ 40 <= E <= 104
    /\ c * 2 ^ E - 2 ^ 52 < mz * 2 ^ 52 <= c * 2 ^ E + 2 ^ 52
    /\ t * 2 ^ E <= mz * 5179139571476070 + 2 ^ 53
    /\ mz * 5179139571476070 - 2 ^ 53 < (t + 1) * 2 ^ E
    /\ arena_grow_capacity c = if t <? word_modulus then Ok t else Undefined.
Proof.
  intros Hc. unfold arena_grow_capacity.
  destruct (size_t_to_double_bounds c) as (mz & ez & -> & Bmz & Hez & Hcz).
  { change (2 ^ 64) with (2 * 2 ^ 63). lia. }
  unfold ARENA_GROW_FACTOR, SFmul. cbn [xorb].
  set (M := 5179139571476070%positive).
  pose proof (digits2_pos_bounds (mz * M)) as [Bl Bu].
  set (d := Zpos (digits2_pos (mz * M))) in *.
  rewrite Pos2Z.inj_mul in Bl, Bu.
  assert (HM : 2 ^ 52 <= Zpos M < 2 ^ 53) by (cbn; lia).
  assert (HP : 2 ^ 104 <= Zpos mz * Zpos M < 2 ^ 106).
  { change (2 ^ 104) with (2 ^ 52 * 2 ^ 52).
    change (2 ^ 106) with (2 ^ 53 * 2 ^ 53).
    change (2 ^ 52) with 4503599627370496 in *.
    change (2 ^ 53) with 9007199254740992 in *. nia. }
  assert (Hd : 105 <= d <= 106).
  { assert (104 < d) by (apply (Z.pow_lt_mono_r_iff 2); lia).
    assert (d - 1 < 106) by (apply (Z.pow_lt_mono_r_iff 2); lia). lia. }
  destruct (binary_round_aux_bounds (mz * M) (ez + -52))
    as (m' & e' & -> & _ & He' & Hv); fold d; try lia.
  fold d in He', Hv. rewrite Pos2Z.inj_mul in Hv.
  assert (Hulp : 2 ^ (d - 53) <= 2 ^ 53) by (apply Z.pow_le_mono_r; lia).
  set (E := 52 - ez) in *.
  assert (HE : 40 <= E <= 104) by (subst E; lia).
  assert (HE0 : 0 < 2 ^ E) by (apply Z.pow_pos_nonneg; lia).
  unfold double_to_size_t.
  set (t := if 0 <=? e' then Zpos m' * 2 ^ e' else Zpos m' / 2 ^ (- e')).
  assert (Ht : t * 2 ^ E <= Zpos m' * 2 ^ (e' - (ez + -52)) < (t + 1) * 2 ^ E).
  { subst t. destruct (Z.leb_spec 0 e') as [L|L].
    - replace (e' - (ez + -52)) with (e' + E) by (subst E; lia).
      rewrite Z.pow_add_r by lia.
      assert (0 < 2 ^ e') by (apply Z.pow_pos_nonneg; lia). nia.
    - assert (Hs : 0 < 2 ^ (- e')) by (apply Z.pow_pos_nonneg; lia).
      assert (Hr : 0 < 2 ^ (e' - (ez + -52))) by (apply Z.pow_pos_nonneg; lia).
      replace (2 ^ E) with (2 ^ (- e') * 2 ^ (e' - (ez + -52))).
      2:{ rewrite <- Z.pow_add_r by lia. f_equal. subst E. lia. }
      pose proof (Z.mul_div_le (Zpos m') (2 ^ (- e')) Hs).
      pose proof (Z.mul_succ_div_gt (Zpos m') (2 ^ (- e')) Hs).
      nia. }
  exists (Zpos mz), E, t. change (Zpos M) with 5179139571476070 in *.
  repeat split; try lia.
Qed.

(** The grown block is at most a quarter larger than the size it is
    computed from. *)
Lemma arena_grow_capacity_upper (c g : Z) :
  0 < c < 2 ^ 63 -> arena_grow_capacity c = Ok g -> 4 * g <= 5 * c.
Proof.
  intros Hc Hg.
  destruct (arena_grow_capacity_core c Hc)
    as (mz & E & t & Hmz & HE & Hcz & Hle & _ & Eq).
  rewrite Hg in Eq. destruct (t <? word_modulus); [|discriminate].
  injection Eq as ->.
  assert (HE0 : 0 < 2 ^ E) by (apply Z.pow_pos_nonneg; lia).
  change (2 ^ 52) with 4503599627370496 in *.
  change (2 ^ 53) with 9007199254740992 in *.
  nia.
Qed.

(** X4. The size of the block that [arena_alloc_raw] adds for a request of
    [nbytes > 0] bytes with [nbytes + alignment <= 2^63]: the request is
    first rounded up to the next multiple of [alignment], then multiplied
    by [ARENA_GROW_FACTOR] in [double] and truncated.  Both steps are
    defined, the block is never smaller than the rounded request and never
    more than a quarter larger. *)
Theorem arena_grow_sizing (nbytes alignment : Z) :
  0 < nbytes -> 0 < alignment -> nbytes + alignment <= 2 ^ 63 ->
  exists new_cap grown,
    align_forward_size nbytes alignment = Ok new_cap
    /\ arena_grow_capacity new_cap = Ok grown
    /\ nbytes <= new_cap < nbytes + alignment
    /\ new_cap mod alignment = 0
    /\ new_cap <= grown
    /\ 4 * grown <= 5 * new_cap.
Proof.
  intros Hn Ha Hna.
  assert (H63 : 2 ^ 63 = 9223372036854775808) by reflexivity.
  assert (HW : word_modulus = 18446744073709551616) by reflexivity.
  destruct (align_forward_size nbytes alignment) as [c| |] eqn:Hc;
    try (unfold align_forward_size in Hc;
         destruct (Z.eqb_spec alignment 0); [lia|discriminate]).
  pose proof (align_forward_size_bounds nbytes alignment c Hn Ha ltac:(lia) Hc) as Hb.
  destruct (arena_grow_capacity_bounds c ltac:(lia)) as (g & Hg & Hlo & _).
  exists c, g. split; [reflexivity|]. split; [exact Hg|]. split; [exact Hb|].
  split; [|split; [exact Hlo|]].
  - change (align_forward_size nbytes alignment)
      with (align_forward_ptr nbytes alignment) in Hc.
    unfold align_forward_ptr in Hc. destruct (Z.eqb_spec alignment 0); [lia|].
    injection Hc as <-. rewrite Z.gtb_ltb.
    destruct (mod_opp_cases nbytes alignment Ha) as [[E1 E2]|[E1 E2]].
    + destruct (Z.ltb_spec 0 (nbytes mod alignment)); [lia|assumption].
    + destruct (Z.ltb_spec 0 (nbytes mod alignment)); [|lia].
      assert (Hs : wadd nbytes (wsub alignment (nbytes mod alignment))
                   = nbytes + (alignment - nbytes mod alignment)).
      { set (r := nbytes mod alignment) in *. clearbody r. word_lia. }
      rewrite Hs.
      replace (nbytes + (alignment - nbytes mod alignment))
        with (alignment + (nbytes - nbytes mod alignment)) by ring.
      rewrite <- Zplus_mod_idemp_r, Zminus_mod_idemp_r, Z.sub_diag, Z.add_0_r.
      apply Z.mod_same. lia.
  - apply (arena_grow_capacity_upper c g); [lia|exact Hg].
Qed.

Lemma arena_grow_sizing_witness :
  exists new_cap grown,
    align_forward_size 100 8 = Ok new_cap
    /\ arena_grow_capacity new_cap = Ok grown
    /\ 100 <= new_cap < 100 + 8
    /\ new_cap mod 8 = 0
    /\ new_cap <= grown
    /\ 4 * grown <= 5 * new_cap.
Proof.
  apply (arena_grow_sizing 100 8).
  - lia.
  - lia.
  - cbn. lia.
Defined.

(** ** What a call of [arena_alloc_raw] leaves of the chain *)

Lemma arena_block_alloc_raw_advanced (b : ArenaBlock) (n a p : Z) (b' : ArenaBlock) :
  cursor_ok b -> arena_block_alloc_raw b n a = Ok (p, b') -> block_advanced b b'.
Proof.
  intros [Ho Hc]. unfold arena_block_alloc_raw.
  destruct (arena_block_get_required _ n a) as [r| |] eqn:Hr;
    cbn [bind]; try discriminate.
  assert (Hr0 : 0 <= r < word_modulus).
  { unfold arena_block_get_required in Hr.
    destruct (align_forward_ptr _ a); cbn [bind] in Hr; try discriminate.
    injection Hr as <-. apply wrap_range. }
  rewrite Z.gtb_ltb.
  destruct (Z.ltb_spec
    (wsub (capacity b) (wsub (wadd (data b) (offset b)) (data b))) r) as [L|L];
    intros [= _ <-]; unfold block_advanced.
  - repeat split; lia.
  - cbn [set_offset addr data offset capacity]. repeat split.
    revert L. word_lia.
Qed.

Lemma arena_alloc_search_advanced (chain : list ArenaBlock) (n a p : Z)
    (chain' : list ArenaBlock) :
  Forall cursor_ok chain -> arena_alloc_search chain n a = Ok (p, chain') ->
  Forall2 block_advanced chain chain'.
Proof.
  revert p chain'. induction chain as [|b next IH]; intros p chain' Hok;
    cbn [arena_alloc_search].
  - intros [= _ <-]. constructor.
  - inversion Hok as [|? ? Hb Hnext]; subst.
    destruct (arena_block_alloc_raw b n a) as [[q b']| |] eqn:Hq;
      cbn [bind]; try discriminate.
    apply arena_block_alloc_raw_advanced in Hq; [|assumption].
    destruct (negb (q =? NULL)).
    + intros [= _ <-]. constructor; [assumption|].
      clear -next. induction next; constructor; auto.
      unfold block_advanced. repeat split; lia.
    + destruct (arena_alloc_search next n a) as [[r next']| |] eqn:Hs;
        cbn [bind]; try discriminate.
      intros [= _ <-]. constructor; [assumption|]. eapply IH; eauto.
Qed.

Lemma block_advanced_trans (b c d : ArenaBlock) :
  block_advanced b c -> block_advanced c d -> block_advanced b d.
Proof. unfold block_advanced. intuition congruence || lia. Qed.

Lemma Forall2_block_advanced_trans (l1 l2 l3 : list ArenaBlock) :
  Forall2 block_advanced l1 l2 -> Forall2 block_advanced l2 l3 ->
  Forall2 block_advanced l1 l3.
Proof.
  intros H. revert l3. induction H as [|x y l1 l2 Hxy _ IH]; intros l3 H23;
    inversion H23; subst; constructor.
  - eapply block_advanced_trans; eauto.
  - now apply IH.
Qed.

(** X5. A call of [arena_alloc_raw], whatever the request and whatever it
    returns, never removes, reorders or moves a block and never takes an
    offset back: the chain it leaves is the old chain, block for block
    with the same record, buffer and capacity and an offset that is the
    same or larger, behind the blocks the call added; the procedures of
    the arena are untouched.  In particular the number of blocks never
    decreases. *)
Theorem arena_alloc_raw_extends {Mem : Type} (fuel : nat) (ar : ArenaAllocator Mem)
    (nbytes alignment : Z) (m : Mem) (p : Z) (ar' : ArenaAllocator Mem) (m' : Mem) :
  Forall cursor_ok (head ar) ->
  arena_alloc_raw fuel ar nbytes alignment m = Ok (p, ar', m') ->
  mem_alloc ar' = mem_alloc ar /\ mem_free ar' = mem_free ar
  /\ (length (head ar) <= length (head ar'))%nat
  /\ exists added old,
       head ar' = added ++ old
       /\ Forall2 block_advanced (head ar) old.
Proof.
  intros Hok H.
  enough (G : mem_alloc ar' = mem_alloc ar /\ mem_free ar' = mem_free ar
              /\ exists added old,
                   head ar' = added ++ old
                   /\ Forall2 block_advanced (head ar) old).
  { destruct G as (G1 & G2 & added & old & E & F). repeat split; auto.
    - rewrite E, length_app, (Forall2_length F). lia.
    - eauto. }
  revert ar m Hok H. induction fuel as [|fuel IH]; intros ar m Hok;
    rewrite arena_alloc_raw_eq;
    (destruct (nbytes =? 0);
       [intros [= _ <- _]; repeat split; exists [], (head ar); split;
        [reflexivity|];
        clear; induction (head ar); constructor; auto;
        unfold block_advanced; repeat split; lia|]);
    (destruct (arena_alloc_search (head ar) nbytes alignment)
       as [[q chain]| |] eqn:Hs; cbn [bind]; try discriminate);
    pose proof (arena_alloc_search_cursor_ok _ _ _ _ _ Hok Hs) as Hok1;
    apply arena_alloc_search_advanced in Hs; try assumption;
    (destruct (negb (q =? NULL));
       [intros [= _ <- _]; repeat split; exists [], chain; split;
        [reflexivity|assumption]|]);
    (destruct (align_forward_size nbytes alignment) as [c| |]; cbn [bind];
       try discriminate);
    (destruct (arena_grow_capacity c) as [g| |] eqn:Hg; cbn [bind];
       try discriminate);
    unfold arena_push_block;
    (destruct (arena_block_create (set_head ar chain) g m) as [[blk|] m1] eqn:Hc);
    try discriminate;
    try (intros [= _ <- _]; repeat split; exists [], chain; split;
         [reflexivity|assumption]).
  intros H. apply IH in H.
  - destruct H as (G1 & G2 & added & old & E & F).
    cbn [head set_head mem_alloc mem_free] in *.
    inversion F as [|? blk' ? old' _ F']; subst.
    repeat split; auto. exists (added ++ [blk']), old'. split.
    + rewrite E, <- app_assoc. reflexivity.
    + eapply Forall2_block_advanced_trans; eauto.
  - cbn [head set_head]. constructor; [|assumption].
    destruct (arena_block_create_fresh _ _ _ _ _ Hc) as (Ho & Hcap & _).
    pose proof (arena_grow_capacity_range _ _ Hg).
    unfold cursor_ok. rewrite Ho, Hcap. lia.
Qed.

Lemma arena_alloc_raw_extends_witness :
  let ar' :=
    set_head small_arena
      ({| addr := 4144; data := 4176; offset := 16; capacity := 18 |}
       :: head small_arena) in
  mem_alloc ar' = mem_alloc small_arena
  /\ mem_free ar' = mem_free small_arena
  /\ (length (head small_arena) <= length (head ar'))%nat
  /\ exists added old,
       head ar' = added ++ old
       /\ Forall2 block_advanced (head small_arena) old.
Proof.
  apply (arena_alloc_raw_extends 1 small_arena 16 16 (small_pool 1000000) 4176
           (set_head small_arena
              ({| addr := 4144; data := 4176; offset := 16; capacity := 18 |}
               :: head small_arena))
           {| pool_next := 4208; pool_limit := 1000000 |}).
  - repeat constructor; cbn; unfold word_modulus, word_bits; cbn; lia.
  - vm_compute. reflexivity.
Defined.

(** ** No undefined behaviour, and regions inside the blocks *)

Lemma arena_alloc_search_defined (chain : list ArenaBlock) (n a : Z) :
  a <> 0 -> exists p chain', arena_alloc_search chain n a = Ok (p, chain').
Proof.
  intros Ha. induction chain as [|b next (q & next' & IH)];
    cbn [arena_alloc_search]; [eauto|].
  unfold arena_block_alloc_raw, arena_block_get_required, align_forward_ptr.
  destruct (Z.eqb_spec a 0) as [|_]; [contradiction|]. cbn [bind].
  destruct (_ >? _); cbn [bind negb].
  - change (NULL =? NULL) with true. cbn [negb]. rewrite IH. cbn [bind]. eauto.
  - destruct (negb _); [eauto|]. rewrite IH. cbn [bind]. eauto.
Qed.

(** X6. For an alignment that is not zero and a request with
    [nbytes + alignment <= 2^63], a call of [arena_alloc_raw] has no
    undefined step, whatever the arena and the memory provider: no division
    by zero, no conversion out of the range of [size_t].  (The recursion
    may still go on for as long as the provider serves blocks that do not
    fit.) *)
Theorem arena_alloc_raw_defined {Mem : Type} (fuel : nat) (ar : ArenaAllocator Mem)
    (nbytes alignment : Z) (m : Mem) :
  0 <= nbytes -> 0 < alignment -> nbytes + alignment <= 2 ^ 63 ->
  arena_alloc_raw fuel ar nbytes alignment m <> Undefined.
Proof.
  intros Hn Ha Hna. revert ar m.
  assert (H63 : 2 ^ 63 = 9223372036854775808) by reflexivity.
  assert (HW : word_modulus = 18446744073709551616) by reflexivity.
  induction fuel as [|fuel IH]; intros ar m; rewrite arena_alloc_raw_eq;
    (destruct (Z.eqb_spec nbytes 0) as [E0|E0]; [discriminate|]);
    (destruct (arena_alloc_search_defined (head ar) nbytes alignment)
       as (q & chain & ->); [lia|]); cbn [bind];
    (destruct (negb (q =? NULL)); [discriminate|]);
    (destruct (align_forward_size nbytes alignment) as [c| |] eqn:Hc;
       try (unfold align_forward_size in Hc;
            destruct (Z.eqb_spec alignment 0); [lia|discriminate]));
    cbn [bind];
    pose proof (align_forward_size_bounds nbytes alignment c
                  ltac:(lia) Ha ltac:(lia) Hc) as Hb;
    (destruct (arena_grow_capacity_bounds c ltac:(lia)) as (g & -> & _));
    cbn [bind];
    (destruct (arena_push_block (set_head ar chain) g m) as [[[] ar1] m1]);
    try discriminate.
  apply IH.
Qed.

Lemma arena_alloc_raw_defined_witness :
  arena_alloc_raw 0 small_arena 32 32 (small_pool 1000000) <> Undefined.
Proof.
  apply (arena_alloc_raw_defined 0 small_arena 32 32 (small_pool 1000000)).
  - lia.
  - lia.
  - cbn. lia.
Defined.

Lemma used_part_within_buffer (b : ArenaBlock) :
  0 <= offset b <= capacity b -> region_within (used_part b) (buffer b).
Proof. unfold region_within, used_part, buffer. cbn [fst snd]. lia. Qed.

(** What is in use in a chain in good order is live in the sense of
    [live_ok]. *)
Lemma live_ok_used_parts (chain : list ArenaBlock) :
  chain_buffers_ok chain -> offsets_ok chain ->
  live_ok chain (map used_part chain).
Proof.
  induction chain as [|b next IH]; intros Hbuf Hoff; [constructor|].
  inversion Hoff as [|? ? Hb Hnext]; subst.
  destruct Hbuf as [Hr Hd]. cbn [map] in Hr, Hd.
  inversion Hr as [|? ? Hrb Hrn]; subst.
  inversion Hd as [|? ? Hdb Hdn]; subst. rewrite Forall_map in Hdb.
  assert (IH' : live_ok next (map used_part next)) by (apply IH; [split|]; auto).
  cbn [map]. constructor.
  - split.
    + exists b. split; [now left|now apply used_part_within_buffer].
    + constructor.
      * unfold regions_disjoint, used_part, free_part. cbn [fst snd]. lia.
      * rewrite Forall_forall in *. intros c Hc.
        eapply regions_disjoint_within; [exact (Hdb c Hc)| |].
        -- now apply used_part_within_buffer.
        -- apply free_part_within_buffer. auto.
  - unfold live_ok in *. rewrite Forall_forall in *. intros r Hr'.
    destruct (IH' r Hr') as [(c & Hc & Hw) Hfree]. split.
    + exists c. split; [now right|assumption].
    + constructor; [|assumption].
      eapply regions_disjoint_within;
        [apply regions_disjoint_sym; exact (Hdb c Hc)|exact Hw|].
      now apply free_part_within_buffer.
Qed.

(** X7. Where the byte arithmetic cannot wrap and the buffers are real and
    disjoint, the region [p, p + nbytes) of a successful call lies in the
    used part of one block of the chain the call leaves, so inside that
    block's buffer, and overlaps nothing that was in use in any block
    before the call. *)
Theorem arena_alloc_raw_in_bounds {Mem : Type} (fuel : nat) (ar : ArenaAllocator Mem)
    (nbytes alignment : Z) (m : Mem) (p : Z) (ar' : ArenaAllocator Mem) (m' : Mem) :
  request_ok (nbytes, alignment) ->
  offsets_ok (head ar) ->
  arena_alloc_raw fuel ar nbytes alignment m = Ok (p, ar', m') ->
  chain_buffers_ok (head ar') ->
  p <> NULL ->
  (exists b, In b (head ar')
             /\ region_within (p, nbytes) (used_part b)
             /\ offset b <= capacity b)
  /\ Forall (fun b0 => regions_disjoint (p, nbytes) (used_part b0)) (head ar).
Proof.
  intros (Hn & Ha & Hna) Hoff H Hfinal Hp. cbn [fst snd] in *.
  pose proof (arena_alloc_raw_buffers _ _ _ _ _ _ _ _ H) as (pre & Epre).
  assert (Hbuf : chain_buffers_ok (head ar)).
  { unfold chain_buffers_ok in *. rewrite Epre in Hfinal.
    eapply buffers_ok_app_r; eauto. }
  pose proof (live_ok_used_parts _ Hbuf Hoff) as Hlive.
  destruct (arena_alloc_raw_step _ _ _ _ _ _ _ _ _ Hn Ha Hna H Hfinal Hoff Hlive)
    as (Hoff' & _ & Hnew).
  destruct (Hnew Hp) as [Hdisj Hlivep].
  assert (Hn0 : 0 < nbytes).
  { destruct (Z.eq_dec nbytes 0) as [->|]; [|lia].
    rewrite arena_alloc_raw_eq in H. change (0 =? 0) with true in H.
    cbv iota in H. injection H as <- _ _. contradiction. }
  split.
  - inversion Hlivep as [|? ? [(b & Hb & Hw) Hfree] _]; subst.
    exists b. split; [assumption|].
    unfold offsets_ok in Hoff'. rewrite Forall_forall in Hoff', Hfree.
    specialize (Hoff' b Hb). specialize (Hfree b Hb).
    unfold region_within, regions_disjoint, used_part, buffer, free_part in *.
    cbn [fst snd] in *. lia.
  - rewrite Forall_map in Hdisj. exact Hdisj.
Qed.

Lemma arena_alloc_raw_in_bounds_witness :
  let ar :=
    set_head test_arena
      [{| addr := 4336; data := 4368; offset := 4; capacity := 4 |};
       {| addr := 4096; data := 4128; offset := 124; capacity := 200 |}] in
  let ar' :=
    set_head test_arena
      [{| addr := 4336; data := 4368; offset := 4; capacity := 4 |};
       {| addr := 4096; data := 4128; offset := 144; capacity := 200 |}] in
  (exists b, In b (head ar')
             /\ region_within (4256, 16) (used_part b)
             /\ offset b <= capacity b)
  /\ Forall (fun b0 => regions_disjoint (4256, 16) (used_part b0)) (head ar).
Proof.
  apply (arena_alloc_raw_in_bounds 0
           (set_head test_arena
              [{| addr := 4336; data := 4368; offset := 4; capacity := 4 |};
               {| addr := 4096; data := 4128; offset := 124; capacity := 200 |}])
           16 8 test_pool 4256
           (set_head test_arena
              [{| addr := 4336; data := 4368; offset := 4; capacity := 4 |};
               {| addr := 4096; data := 4128; offset := 144; capacity := 200 |}])
           test_pool).
  - unfold request_ok, word_modulus, word_bits. cbn. lia.
  - repeat constructor; cbn; lia.
  - vm_compute. reflexivity.
  - split; repeat constructor; cbn; unfold word_modulus, word_bits; cbn; lia.
  - unfold NULL. lia.
Defined.

(** ** Invariants of the states the operations reach *)

(** A property of blocks that [arena_block_alloc_raw] keeps and that fresh
    blocks have is kept by [arena_alloc_raw]. *)
Lemma arena_alloc_search_preserves (P : ArenaBlock -> Prop)
    (chain : list ArenaBlock) (n a p : Z) (chain' : list ArenaBlock) :
  (forall b q b', P b -> arena_block_alloc_raw b n a = Ok (q, b') -> P b') ->
  Forall P chain -> arena_alloc_search chain n a = Ok (p, chain') ->
  Forall P chain'.
Proof.
  intros Hkeep. revert p chain'.
  induction chain as [|b next IH]; intros p chain' Hok; cbn [arena_alloc_search].
  - intros [= _ <-]. constructor.
  - inversion Hok as [|? ? Hb Hnext]; subst.
    destruct (arena_block_alloc_raw b n a) as [[q b']| |] eqn:Hq;
      cbn [bind]; try discriminate.
    apply Hkeep in Hq; [|assumption].
    destruct (negb (q =? NULL)).
    + intros [= _ <-]. constructor; assumption.
    + destruct (arena_alloc_search next n a) as [[r next']| |] eqn:Hs;
        cbn [bind]; try discriminate.
      intros [= _ <-]. constructor; [assumption|]. eapply IH; eauto.
Qed.

Lemma arena_alloc_raw_preserves {Mem : Type} (P : ArenaBlock -> Prop) (fuel : nat)
    (ar : ArenaAllocator Mem) (n a : Z) (m : Mem) (p : Z)
    (ar' : ArenaAllocator Mem) (m' : Mem) :
  (forall b q b', P b -> arena_block_alloc_raw b n a = Ok (q, b') -> P b') ->
  (forall (ar0 : ArenaAllocator Mem) c cap m0 blk m1,
     arena_grow_capacity c = Ok cap ->
     arena_block_create ar0 cap m0 = (Some blk, m1) -> P blk) ->
  Forall P (head ar) ->
  arena_alloc_raw fuel ar n a m = Ok (p, ar', m') ->
  Forall P (head ar').
Proof.
  intros Hkeep Hfresh. revert ar m.
  induction fuel as [|fuel IH]; intros ar m Hok;
    rewrite arena_alloc_raw_eq;
    (destruct (n =? 0); [intros [= _ <- _]; assumption|]);
    (destruct (arena_alloc_search (head ar) n a) as [[q chain]| |] eqn:Hs;
       cbn [bind]; try discriminate);
    apply (arena_alloc_search_preserves P) in Hs; try assumption;
    (destruct (negb (q =? NULL)); [intros [= _ <- _]; assumption|]);
    (destruct (align_forward_size n a) as [c| |]; cbn [bind]; try discriminate);
    (destruct (arena_grow_capacity c) as [g| |] eqn:Hg; cbn [bind];
       try discriminate);
    unfold arena_push_block;
    (destruct (arena_block_create (set_head ar chain) g m) as [[blk|] m1] eqn:Hc);
    try discriminate;
    try (intros [= _ <- _]; assumption).
  apply IH. cbn [head set_head]. constructor; [|assumption].
  eapply Hfresh; eauto.
Qed.

Lemma arena_block_create_valid {Mem : Type} (ar : ArenaAllocator Mem) (cap : Z)
    (m : Mem) (blk : ArenaBlock) (m' : Mem) :
  0 <= cap < word_modulus ->
  arena_block_create ar cap m = (Some blk, m') -> block_valid blk.
Proof.
  intros Hcap. unfold arena_block_create.
  destruct (mem_alloc ar NULL sizeof_ArenaBlock m) as [p m1].
  destruct (Z.eqb_spec p NULL); [discriminate|].
  destruct (mem_alloc ar NULL cap m1) as [d m2].
  destruct (Z.eqb_spec d NULL); [discriminate|].
  intros [= <- _]. unfold block_valid, cursor_ok.
  cbn [addr data offset capacity]. repeat split; auto; lia.
Qed.

Lemma arena_block_alloc_raw_valid (b : ArenaBlock) (n a q : Z) (b' : ArenaBlock) :
  block_valid b -> arena_block_alloc_raw b n a = Ok (q, b') -> block_valid b'.
Proof.
  intros (Ha & Hd & Hc) H.
  pose proof (arena_block_alloc_raw_cursor_ok _ _ _ _ _ Hc H) as Hc'.
  destruct (arena_block_alloc_raw_advanced _ _ _ _ _ Hc H) as (Ea & Ed & _).
  unfold block_valid. rewrite Ea, Ed. auto.
Qed.

(** X8. In every state reached from [arena_create] through calls of
    [arena_alloc_raw], [arena_reset] and [arena_push_block], whatever the
    requests (the wrapping ones included) and whatever the memory provider
    returns, every block of the chain has a non-null record, a non-null
    buffer and an offset between zero and its capacity. *)
Theorem arena_reaches_valid {Mem : Type} (malloc : Z -> Mem -> Z * Mem)
    (free : Z -> Mem -> Mem) (mem_alloc_proc : option (ArenaMemAllocProc Mem))
    (mem_free_proc : option (ArenaMemFreeProc Mem)) (cap : Z) (m0 : Mem)
    (ar : ArenaAllocator Mem) (m : Mem) :
  0 <= cap < word_modulus ->
  arena_reaches (arena_create malloc free mem_alloc_proc mem_free_proc cap m0)
                (ar, m) ->
  Forall block_valid (head ar).
Proof.
  intros Hcap Hreach.
  remember (arena_create malloc free mem_alloc_proc mem_free_proc cap m0) as s0 eqn:Es0.
  remember (ar, m) as s eqn:Es. revert ar m Es.
  induction Hreach as [|ar1 m1 fuel n a p ar2 m2 _ IH Hcall
                        |ar1 m1 ar2 _ IH Hcall
                        |ar1 m1 c ok ar2 m2 _ IH Hc Hcall];
    intros ar m Es.
  - subst. unfold arena_create in Es.
    destruct (arena_block_create _ cap m0) as [[blk|] mm] eqn:Hc;
      injection Es as <- _; cbn [head set_head]; constructor; [|constructor].
    eapply arena_block_create_valid; eauto.
  - injection Es as <- <-.
    eapply (arena_alloc_raw_preserves block_valid); [| |apply (IH ar1 m1 eq_refl)|exact Hcall].
    + intros; eapply arena_block_alloc_raw_valid; eauto.
    + intros ar0 c cap' mm blk mm' Hg Hcr.
      eapply arena_block_create_valid; [|exact Hcr].
      eapply arena_grow_capacity_range; eauto.
  - injection Es as <- <-. specialize (IH ar1 m1 eq_refl).
    unfold arena_reset in Hcall. destruct (head ar1) as [|cur next]; [discriminate|].
    injection Hcall as <-. cbn [head set_head]. rewrite arena_reset_from_map.
    rewrite Forall_map. eapply Forall_impl; [|exact IH].
    intros b (Ha & Hd & Ho & Hc'). unfold block_valid, cursor_ok.
    cbn [set_offset addr data offset capacity]. repeat split; auto; lia.
  - injection Es as <- <-. specialize (IH ar1 m1 eq_refl).
    unfold arena_push_block in Hcall.
    destruct (arena_block_create ar1 c m1) as [[blk|] mm] eqn:Hcr;
      injection Hcall as _ <- _; [|assumption].
    cbn [head set_head]. constructor; [|assumption].
    eapply arena_block_create_valid; eauto.
Qed.

Lemma arena_reaches_valid_witness :
  Forall block_valid (head test_arena).
Proof.
  apply (arena_reaches_valid (pool_alloc NULL) (pool_free NULL)
           (Some pool_alloc) (Some pool_free) 200 pool0 test_arena test_pool).
  - unfold word_modulus, word_bits. cbn. lia.
  - apply (reaches_reset _ full_arena test_pool test_arena); [|reflexivity].
    apply (reaches_alloc _
             (set_head full_arena
                [{| addr := 4096; data := 4128; offset := 200; capacity := 200 |}])
             {| pool_next := 4336; pool_limit := 1000000 |}
             1 4 4 4368 full_arena test_pool); [|vm_compute; reflexivity].
    apply (reaches_alloc _
             (set_head full_arena
                [{| addr := 4096; data := 4128; offset := 0; capacity := 200 |}])
             {| pool_next := 4336; pool_limit := 1000000 |}
             0 200 1 4128); [|vm_compute; reflexivity].
    replace (arena_create (pool_alloc NULL) (pool_free NULL) (Some pool_alloc)
               (Some pool_free) 200 pool0)
      with (set_head full_arena
              [{| addr := 4096; data := 4128; offset := 0; capacity := 200 |}],
            {| pool_next := 4336; pool_limit := 1000000 |})
      by (vm_compute; reflexivity).
    apply reaches_start.
Defined.

(** ** Reset, then allocate again *)

Lemma block_fits_from_start (b : ArenaBlock) (n a : Z) :
  block_wf b -> 0 < a -> block_fits b n a -> block_fits (set_offset b 0) n a.
Proof.
  intros (Hd & Ho & Hc) Ha Hf.
  pose proof (padding_of_range b a Ha) as Hp.
  pose proof (aligned_cursor_multiple b a Ha) as Hm.
  unfold block_fits, padding_of, aligned_cursor in *.
  cbn [set_offset data offset capacity]. rewrite Z.add_0_r.
  pose proof (next_multiple_least (data b)
                a (data b + offset b + (- (data b + offset b)) mod a)
                Ha ltac:(unfold padding_of in Hp; lia) Hm).
  unfold padding_of in Hp. lia.
Qed.

(** X9. After [arena_reset], a request that some block of the chain could
    take before the reset is served from the chain as it is: the call
    returns a non-null, aligned pointer, reserves nothing from the memory
    provider and leaves the chain with the same blocks (same buffers, same
    number). *)
Theorem arena_reset_then_alloc {Mem : Type} (fuel : nat) (ar ar1 : ArenaAllocator Mem)
    (nbytes alignment : Z) (m : Mem) :
  0 < nbytes -> 0 < alignment ->
  Forall block_wf (head ar) ->
  Exists (fun b => block_fits b nbytes alignment) (head ar) ->
  arena_reset ar = Ok ar1 ->
  exists p ar2,
    arena_alloc_raw fuel ar1 nbytes alignment m = Ok (p, ar2, m)
    /\ p <> NULL /\ p mod alignment = 0
    /\ map buffer (head ar2) = map buffer (head ar)
    /\ arena_block_count ar2 = arena_block_count ar.
Proof.
  intros Hn Ha Hwf Hex Hreset.
  unfold arena_reset in Hreset.
  destruct (head ar) as [|cur next] eqn:Hh; [discriminate|].
  injection Hreset as <-. rewrite arena_reset_from_map.
  set (chain0 := map (fun b => set_offset b 0) (cur :: next)).
  assert (Hwf0 : Forall block_wf chain0).
  { subst chain0. rewrite Forall_map. eapply Forall_impl; [|exact Hwf].
    intros b (Hd & Ho & Hc). unfold block_wf.
    cbn [set_offset data offset capacity]. lia. }
  assert (Hex0 : Exists (fun b => block_fits b nbytes alignment) chain0).
  { subst chain0. rewrite Exists_map. rewrite Exists_exists in *.
    destruct Hex as (b & Hb & Hf). exists b. split; [assumption|].
    rewrite Forall_forall in Hwf. now apply block_fits_from_start; auto. }
  assert (Hbuf0 : map buffer chain0 = map buffer (cur :: next)).
  { subst chain0. rewrite map_map. reflexivity. }
  destruct (block_fits_cases chain0 nbytes alignment)
    as [Hnone|(pre & b & post & E & Hpre & Hb)].
  { exfalso. rewrite Exists_exists in Hex0. destruct Hex0 as (b & Hb & Hf).
    rewrite Forall_forall in Hnone. exact (Hnone b Hb Hf). }
  assert (Hwf1 := Hwf0). rewrite E in Hwf1.
  apply Forall_app in Hwf1. destruct Hwf1 as [Hwpre Hwrest].
  inversion Hwrest as [|? ? Hwb _]; subst.
  pose proof (aligned_cursor_lower b alignment Hwb Ha) as Hlow.
  exists (aligned_cursor b alignment),
    (set_head (set_head ar chain0)
              (pre ++ block_commit b nbytes alignment :: post)).
  split; [|split; [unfold NULL; lia|split; [now apply aligned_cursor_multiple|split]]].
  - rewrite arena_alloc_raw_eq.
    destruct (Z.eqb_spec nbytes 0) as [|_]; [lia|].
    cbn [head set_head]. rewrite E.
    rewrite arena_alloc_search_first_fit by assumption. cbn [bind].
    destruct (Z.eqb_spec (aligned_cursor b alignment) NULL) as [E'|_];
      [unfold NULL in E'; lia|reflexivity].
  - cbn [head set_head]. rewrite <- Hbuf0, E, !map_app. reflexivity.
  - unfold arena_block_count. cbn [head set_head]. rewrite Hh.
    apply arena_block_count_from_length.
    transitivity (length chain0).
    + rewrite E, !length_app. reflexivity.
    + subst chain0. now rewrite length_map.
Qed.

Lemma arena_reset_then_alloc_witness :
  exists p ar2,
    arena_alloc_raw 0 test_arena 196 4 test_pool = Ok (p, ar2, test_pool)
    /\ p <> NULL /\ p mod 4 = 0
    /\ map buffer (head ar2) = map buffer (head full_arena)
    /\ arena_block_count ar2 = arena_block_count full_arena.
Proof.
  apply (arena_reset_then_alloc 0
           (set_head full_arena
              [{| addr := 4336; data := 4368; offset := 4; capacity := 4 |};
               {| addr := 4096; data := 4128; offset := 0; capacity := 200 |}])
           test_arena 196 4 test_pool).
  - lia.
  - lia.
  - repeat constructor; cbn; unfold word_modulus, word_bits; cbn; lia.
  - apply Exists_cons_tl. apply Exists_cons_hd.
    unfold block_fits, padding_of. cbn. lia.
  - reflexivity.
Defined.

(** ** Everything reserved is released, once *)

Lemma remove_first_In (p : Z) (l : list Z) :
  In p l -> exists l', remove_first p l = Some l' /\ Permutation l (p :: l').
Proof.
  induction l as [|q l IH]; intros Hin; [contradiction|].
  cbn [remove_first]. destruct (Z.eqb_spec p q) as [->|Hne].
  - exists l. split; reflexivity.
  - destruct Hin as [->|Hin]; [contradiction|].
    destruct (IH Hin) as (l' & -> & Hperm). exists (q :: l'). split; [reflexivity|].
    rewrite Hperm. apply perm_swap.
Qed.

Lemma remove_first_perm (p : Z) (l rest : list Z) :
  Permutation l (p :: rest) ->
  exists l', remove_first p l = Some l' /\ Permutation l' rest.
Proof.
  intros H. destruct (remove_first_In p l) as (l' & E & Hp).
  - eapply Permutation_in; [symmetry; exact H|now left].
  - exists l'. split; [exact E|].
    apply (Permutation_cons_inv (a := p)). now rewrite <- Hp.
Qed.

Lemma traced_free_live {Mem : Type} (g : ArenaMemFreeProc Mem) (ctx p : Z)
    (t : Traced Mem) (rest : list Z) :
  Permutation (live t) (p :: rest) ->
  Permutation (live (traced_free g ctx p t)) rest
  /\ stray (traced_free g ctx p t) = stray t.
Proof.
  intros H. unfold traced_free.
  destruct (remove_first_perm _ _ _ H) as (l' & -> & Hl'). cbn [live stray]. auto.
Qed.

Lemma arena_block_create_traced {Mem : Type} (f : ArenaMemAllocProc Mem)
    (g : ArenaMemFreeProc Mem) (ar : ArenaAllocator (Traced Mem)) (cap : Z)
    (t : Traced Mem) (r : option ArenaBlock) (t' : Traced Mem) :
  mem_alloc ar = traced_alloc f -> mem_free ar = traced_free g ->
  arena_block_create ar cap t = (r, t') ->
  stray t' = stray t
  /\ live t' = match r with
               | None => live t
               | Some blk => data blk :: addr blk :: live t
               end.
Proof.
  intros Ea Ef. unfold arena_block_create. rewrite Ea, Ef. unfold traced_alloc.
  destruct (f NULL sizeof_ArenaBlock (inner t)) as [blk m1].
  destruct (Z.eqb_spec blk NULL) as [Eb|Eb].
  - intros [= <- <-]. cbn [live stray]. auto.
  - cbn [inner live stray].
    destruct (f NULL cap m1) as [d m2].
    destruct (Z.eqb_spec d NULL) as [Ed|Ed].
    + intros [= <- <-]. unfold traced_free. cbn [live stray inner remove_first].
      rewrite Z.eqb_refl. cbn [live stray]. auto.
    + intros [= <- <-]. cbn [live stray data addr]. auto.
Qed.

Lemma arena_block_alloc_raw_owned (b : ArenaBlock) (n a p : Z) (b' : ArenaBlock) :
  arena_block_alloc_raw b n a = Ok (p, b') -> addr b' = addr b /\ data b' = data b.
Proof.
  unfold arena_block_alloc_raw.
  destruct (arena_block_get_required _ n a); cbn [bind]; try discriminate.
  destruct (_ >? _); intros [= _ <-]; auto.
Qed.

Lemma arena_alloc_search_owned (chain : list ArenaBlock) (n a p : Z)
    (chain' : list ArenaBlock) :
  arena_alloc_search chain n a = Ok (p, chain') -> owned chain' = owned chain.
Proof.
  revert p chain'. induction chain as [|b next IH]; intros p chain';
    cbn [arena_alloc_search].
  - intros [= _ <-]. reflexivity.
  - destruct (arena_block_alloc_raw b n a) as [[q b']| |] eqn:Hb;
      cbn [bind]; try discriminate.
    apply arena_block_alloc_raw_owned in Hb. destruct Hb as [Ea Ed].
    destruct (negb (q =? NULL)).
    + intros [= _ <-]. unfold owned. cbn [flat_map]. now rewrite Ea, Ed.
    + destruct (arena_alloc_search next n a) as [[r next']| |] eqn:Hs;
        cbn [bind]; try discriminate.
      intros [= _ <-]. unfold owned. cbn [flat_map]. rewrite Ea, Ed.
      f_equal. eapply IH; eauto.
Qed.

Lemma owned_reset (chain : list ArenaBlock) :
  owned (map (fun b => set_offset b 0) chain) = owned chain.
Proof.
  induction chain as [|b next IH]; [reflexivity|].
  unfold owned in *. cbn [map flat_map]. now rewrite IH.
Qed.

Lemma arena_alloc_raw_holds {Mem : Type} (f : ArenaMemAllocProc Mem)
    (g : ArenaMemFreeProc Mem) (t0 : Traced Mem) (fuel : nat)
    (ar : ArenaAllocator (Traced Mem)) (n a : Z) (t : Traced Mem) (p : Z)
    (ar' : ArenaAllocator (Traced Mem)) (t' : Traced Mem) :
  holds_exactly f g t0 ar t ->
  arena_alloc_raw fuel ar n a t = Ok (p, ar', t') ->
  holds_exactly f g t0 ar' t'.
Proof.
  revert ar t. induction fuel as [|fuel IH]; intros ar t (Ea & Ef & Hl & Hs);
    rewrite arena_alloc_raw_eq;
    (destruct (n =? 0); [intros [= _ <- <-]; repeat split; assumption|]);
    (destruct (arena_alloc_search (head ar) n a) as [[q chain]| |] eqn:Hsr;
       cbn [bind]; try discriminate);
    apply arena_alloc_search_owned in Hsr;
    (destruct (negb (q =? NULL));
       [intros [= _ <- <-]; repeat split; cbn [head set_head mem_alloc mem_free];
        try assumption; now rewrite Hsr|]);
    (destruct (align_forward_size n a) as [c| |]; cbn [bind]; try discriminate);
    (destruct (arena_grow_capacity c) as [cap| |]; cbn [bind]; try discriminate);
    unfold arena_push_block;
    (destruct (arena_block_create (set_head ar chain) cap t) as [[blk|] t1] eqn:Hc);
    (destruct (arena_block_create_traced f g _ _ _ _ _ Ea Ef Hc) as [Hs1 Hl1]);
    try discriminate;
    try (intros [= _ <- <-]; repeat split; cbn [head set_head mem_alloc mem_free];
         try assumption; [now rewrite Hl1, Hsr|congruence]).
  apply IH. repeat split; cbn [head set_head mem_alloc mem_free]; try assumption.
  - rewrite Hl1. unfold owned. cbn [flat_map app]. fold (owned chain).
    rewrite Hsr, Hl. apply perm_swap.
  - congruence.
Qed.

Lemma arena_destroy_from_traced {Mem : Type} (g : ArenaMemFreeProc Mem)
    (ar : ArenaAllocator (Traced Mem)) (cur : ArenaBlock) (next : list ArenaBlock)
    (t : Traced Mem) (rest : list Z) :
  mem_free ar = traced_free g ->
  Permutation (live t) (owned (cur :: next) ++ rest) ->
  Permutation (live (arena_destroy_from ar cur next t)) rest
  /\ stray (arena_destroy_from ar cur next t) = stray t.
Proof.
  intros Ef. revert cur t.
  assert (Hone : forall cur t tail,
            Permutation (live t) (owned [cur] ++ tail) ->
            Permutation (live (arena_block_destroy ar cur t)) tail
            /\ stray (arena_block_destroy ar cur t) = stray t).
  { intros cur t tail H. unfold arena_block_destroy. rewrite Ef.
    unfold owned in H. cbn [flat_map app] in H.
    destruct (traced_free_live g NULL (data cur) t (addr cur :: tail)) as [H1 S1].
    { rewrite H. apply perm_swap. }
    destruct (traced_free_live g NULL (addr cur) _ tail H1) as [H2 S2].
    split; [exact H2|congruence]. }
  induction next as [|nxt rest' IH]; intros cur t H; cbn [arena_destroy_from].
  - apply Hone. exact H.
  - destruct (Hone cur t (owned (nxt :: rest') ++ rest)) as [H1 S1].
    { unfold owned in *. cbn [flat_map app] in *. exact H. }
    destruct (IH nxt _ H1) as [H2 S2]. split; [exact H2|congruence].
Qed.

(** X10. With a memory provider that keeps track of what it handed out,
    in every state reached from [arena_create] through [arena_alloc_raw],
    [arena_reset] and [arena_push_block] the pointers live at the provider
    are exactly the records and buffers of the blocks of the chain (beside
    what was live before): a reservation that fails half way releases its
    record, and nothing else is ever released.  [arena_destroy] then
    releases every record and every buffer once, leaves what was live
    before as it was, never releases a pointer that is not live, and
    leaves [head] null. *)
Theorem arena_destroy_releases_all {Mem : Type}
    (malloc : Z -> Traced Mem -> Z * Traced Mem) (free : Z -> Traced Mem -> Traced Mem)
    (f : ArenaMemAllocProc Mem) (g : ArenaMemFreeProc Mem) (cap : Z)
    (t0 : Traced Mem) (ar : ArenaAllocator (Traced Mem)) (t : Traced Mem) :
  arena_reaches
    (arena_create malloc free (Some (traced_alloc f)) (Some (traced_free g)) cap t0)
    (ar, t) ->
  Permutation (live t) (owned (head ar) ++ live t0)
  /\ stray t = stray t0
  /\ forall ar' t',
       arena_destroy ar t = Ok (ar', t') ->
       Permutation (live t') (live t0) /\ stray t' = stray t0 /\ head ar' = [].
Proof.
  intros Hreach.
  assert (Hinv : holds_exactly f g t0 ar t).
  { remember (arena_create malloc free (Some (traced_alloc f))
                (Some (traced_free g)) cap t0) as s0 eqn:Es0.
    remember (ar, t) as s eqn:Es. revert ar t Es.
    induction Hreach as [|ar1 t1 fuel n a p ar2 t2 _ IH Hcall
                          |ar1 t1 ar2 _ IH Hcall
                          |ar1 t1 c ok ar2 t2 _ IH Hc Hcall];
      intros ar t Es.
    - subst. unfold arena_create in Es.
      destruct (arena_block_create _ cap t0) as [[blk|] tt] eqn:Hc;
        injection Es as <- <-;
        (pose proof (fun Ea Ef => arena_block_create_traced f g _ _ _ _ _ Ea Ef Hc)
           as Hx);
        cbn [mem_alloc mem_free] in Hx;
        (destruct (Hx eq_refl eq_refl) as [Hs Hl]);
        repeat split; cbn [head set_head mem_alloc mem_free]; auto.
      + rewrite Hl. unfold owned. cbn [flat_map app]. apply perm_swap.
      + now rewrite Hl.
    - injection Es as <- <-.
      eapply arena_alloc_raw_holds; [apply (IH ar1 t1 eq_refl)|exact Hcall].
    - injection Es as <- <-. destruct (IH ar1 t1 eq_refl) as (Ea & Ef & Hl & Hs).
      unfold arena_reset in Hcall.
      destruct (head ar1) as [|cur next] eqn:Hh; [discriminate|].
      injection Hcall as <-.
      repeat split; cbn [head set_head mem_alloc mem_free]; auto.
      rewrite arena_reset_from_map, owned_reset, Hl. reflexivity.
    - injection Es as <- <-. destruct (IH ar1 t1 eq_refl) as (Ea & Ef & Hl & Hs).
      unfold arena_push_block in Hcall.
      destruct (arena_block_create ar1 c t1) as [[blk|] tt] eqn:Hcr;
        (destruct (arena_block_create_traced f g _ _ _ _ _ Ea Ef Hcr) as [Hs1 Hl1]);
        injection Hcall as _ <- <-;
        repeat split; cbn [head set_head mem_alloc mem_free]; auto;
        try congruence.
      rewrite Hl1, Hl. unfold owned. cbn [flat_map app]. apply perm_swap. }
  destruct Hinv as (Ea & Ef & Hl & Hs).
  split; [exact Hl|]. split; [exact Hs|].
  intros ar' t'. unfold arena_destroy.
  destruct (head ar) as [|cur next]; [discriminate|].
  intros [= <- <-].
  destruct (arena_destroy_from_traced g ar cur next t (live t0) Ef Hl) as [H1 H2].
  repeat split; [exact H1|congruence].
Qed.

Lemma arena_destroy_releases_all_witness :
  Permutation (live traced_pool2) (owned (head traced_arena2) ++ [64])
  /\ stray traced_pool2 = []
  /\ forall ar' t',
       arena_destroy traced_arena2 traced_pool2 = Ok (ar', t') ->
       Permutation (live t') [64] /\ stray t' = [] /\ head ar' = [].
Proof.
  apply (arena_destroy_releases_all (traced_alloc pool_alloc NULL)
           (traced_free pool_free NULL) pool_alloc pool_free 200 traced_pool0
           traced_arena2 traced_pool2).
  apply (reaches_alloc _
           (set_head traced_arena2
              [{| addr := 4096; data := 4128; offset := 200; capacity := 200 |}])
           {| inner := {| pool_next := 4336; pool_limit := 1000000 |};
              live := [4128; 4096; 64]; stray := [] |}
           1 4 4 4368 traced_arena2 traced_pool2); [|vm_compute; reflexivity].
  apply (reaches_alloc _
           (set_head traced_arena2
              [{| addr := 4096; data := 4128; offset := 0; capacity := 200 |}])
           {| inner := {| pool_next := 4336; pool_limit := 1000000 |};
              live := [4128; 4096; 64]; stray := [] |}
           0 200 1 4128); [|vm_compute; reflexivity].
  replace (arena_create (traced_alloc pool_alloc NULL) (traced_free pool_free NULL)
             (Some (traced_alloc pool_alloc)) (Some (traced_free pool_free))
             200 traced_pool0)
    with (set_head traced_arena2
            [{| addr := 4096; data := 4128; offset := 0; capacity := 200 |}],
          {| inner := {| pool_next := 4336; pool_limit := 1000000 |};
             live := [4128; 4096; 64]; stray := [] |})
    by (vm_compute; reflexivity).
  apply reaches_start.
Defined.

(** ** The test harness *)

Lemma int_of_in_range (x : Z) : INT_MIN <= x <= INT_MAX -> int_of x = Ok x.
Proof.
  intros [Hl Hu]. unfold int_of.
  destruct (Z.leb_spec INT_MIN x); [|lia]. destruct (Z.leb_spec x INT_MAX); [|lia].
  reflexivity.
Qed.

Lemma Tp_all_from (t : tu_Test) (checks : list (bool * String.string))
    (out : list tu_line) :
  0 <= error_count t <= tests_count t ->
  tests_count t + Z.of_nat (length checks) <= INT_MAX ->
  Tp_all t checks out =
  Ok ({| title := title t;
         tests_count := tests_count t + Z.of_nat (length checks);
         error_count := error_count t + Z.of_nat (length (failures checks)) |},
      out ++ map tu_failed (failures checks)).
Proof.
  revert t out. induction checks as [|[expr msg] rest IH]; intros t out He Hn.
  - cbn [Tp_all failures filter map length Z.of_nat]. rewrite !Z.add_0_r, app_nil_r.
    destruct t; reflexivity.
  - cbn [length] in Hn. rewrite Nat2Z.inj_succ in Hn.
    assert (Hf : Z.of_nat (length (failures rest)) <= Z.of_nat (length rest)).
    { unfold failures. rewrite length_map. apply inj_le, filter_length_le. }
    cbn [Tp_all]. unfold Tp, tu_assert.
    rewrite int_of_in_range by (unfold INT_MIN, INT_MAX in *; lia). cbn [bind].
    destruct expr; cbn [negb bind tests_count error_count title].
    + rewrite IH by (cbn [tests_count error_count]; lia).
      cbn [tests_count error_count title length]. unfold failures.
      cbn [filter fst negb]. rewrite Nat2Z.inj_succ. do 3 f_equal; lia.
    + rewrite int_of_in_range by (unfold INT_MIN, INT_MAX in *; lia).
      cbn [bind tests_count error_count title].
      rewrite IH by (cbn [tests_count error_count]; lia).
      cbn [tests_count error_count title length]. unfold failures.
      cbn [filter fst snd negb map length]. rewrite <- app_assoc. cbn [app].
      rewrite !Nat2Z.inj_succ. do 3 f_equal; lia.
Qed.

Lemma failures_none (checks : list (bool * String.string)) :
  negb (Z.of_nat (length (failures checks)) >? 0) = forallb fst checks.
Proof.
  induction checks as [|[[|] msg] rest IH]; [reflexivity| |].
  - unfold failures in *. cbn [filter fst negb forallb andb]. exact IH.
  - unfold failures. cbn [filter fst snd negb forallb andb map length].
    rewrite Nat2Z.inj_succ. destruct (Z.gtb_spec (Z.succ (Z.of_nat (length
      (map snd (filter (fun c => negb (fst c)) rest))))) 0); [reflexivity|lia].
Qed.

(** X11. A test of at most [INT_MAX] predicates, from [Test_Begin] through
    one [Tp] per predicate to [Test_End], has no undefined step, prints the
    header, then one line for each predicate that does not hold, in order,
    then the result line, which says PASS exactly when every predicate
    holds and counts the predicates that hold out of all of them; the
    value returned is the number of predicates that do not hold. *)
Theorem tu_test_reports (title_ : String.string)
    (checks : list (bool * String.string)) :
  Z.of_nat (length checks) <= INT_MAX ->
  let n := Z.of_nat (length checks) in
  let k := Z.of_nat (length (failures checks)) in
  ('(t, out) <- Tp_all (fst (Test_Begin title_)) checks (snd (Test_Begin title_)) ;;
   Test_End t out)
  = Ok (k, tu_header title_ :: map tu_failed (failures checks)
             ++ [tu_result (forallb fst checks) (n - k) n]).
Proof.
  intros Hn n k. unfold Test_Begin, tu_displayHeader. cbn [fst snd app title].
  rewrite Tp_all_from by (cbn [tests_count error_count]; lia).
  cbn [bind tests_count error_count title]. rewrite !Z.add_0_l. fold n k.
  assert (Hk : 0 <= k <= n).
  { subst n k. unfold failures. rewrite length_map. split; [lia|].
    apply inj_le, filter_length_le. }
  unfold Test_End, tu_displayResults. cbn [tests_count error_count].
  rewrite int_of_in_range by (unfold INT_MIN, INT_MAX in *; lia). cbn [bind].
  unfold as_unsigned. unfold INT_MAX in Hn.
  rewrite !Z.mod_small by (change (2 ^ 32) with 4294967296; lia).
  subst k. rewrite failures_none. reflexivity.
Qed.

Lemma tu_test_reports_witness :
  ('(t, out) <- Tp_all (fst (Test_Begin "T"%string))
                  [(true, "a"%string); (false, "b"%string); (true, "c"%string)]
                  (snd (Test_Begin "T"%string)) ;;
   Test_End t out)
  = Ok (1, [tu_header "T"%string; tu_failed "b"%string; tu_result false 2 3]).
Proof.
  apply (tu_test_reports "T"%string
           [(true, "a"%string); (false, "b"%string); (true, "c"%string)]).
  vm_compute. discriminate.
Defined.

(** ** [test.c] *)

Lemma arena_alloc_raw_commits {Mem : Type} (fuel : nat) (ar : ArenaAllocator Mem)
    (pre : list ArenaBlock) (b : ArenaBlock) (post : list ArenaBlock)
    (n a : Z) (m : Mem) :
  head ar = pre ++ b :: post ->
  0 < n -> 0 < a ->
  Forall block_wf pre -> block_wf b ->
  Forall (fun x => ~ block_fits x n a) pre ->
  (data b + offset b) mod a = 0 -> n <= capacity b - offset b ->
  arena_alloc_raw fuel ar n a m =
  Ok (data b + offset b,
      set_head ar (pre ++ set_offset b (offset b + n) :: post), m).
Proof.
  intros Hh Hn Ha Hpre Hb Hnf Hal Hroom.
  assert (Hp : padding_of b a = 0).
  { unfold padding_of. rewrite Z.mod_opp_l_z by lia. reflexivity. }
  rewrite arena_alloc_raw_eq. destruct (Z.eqb_spec n 0) as [|_]; [lia|].
  rewrite Hh, arena_alloc_search_first_fit by
    (try assumption; unfold block_fits; rewrite Hp; lia).
  cbn [bind]. unfold aligned_cursor, block_commit. rewrite Hp, !Z.add_0_r.
  destruct Hb as (Hd & Ho & _).
  destruct (Z.eqb_spec (data b + offset b) NULL) as [E|_];
    [unfold NULL in E; lia|]. reflexivity.
Qed.

Lemma store_int_ok {Mem : Type} (ar : ArenaAllocator Mem) (p index : Z)
    (b : ArenaBlock) :
  p <> NULL -> In b (head ar) ->
  data b <= p + sizeof_int * index ->
  p + sizeof_int * index + sizeof_int <= data b + offset b ->
  store_int ar p index = Ok tt.
Proof.
  intros Hp Hin Hl Hu. unfold store_int.
  destruct (Z.eqb_spec p NULL); [contradiction|].
  replace (existsb _ (head ar)) with true; [reflexivity|].
  symmetry. apply existsb_exists. exists b. split; [exact Hin|].
  apply andb_true_intro. split; apply Z.leb_le; assumption.
Qed.

Ltac tp_step :=
  unfold Tp, tu_assert; cbn [tests_count error_count title];
  rewrite int_of_in_range by (unfold INT_MIN, INT_MAX; lia); cbn [bind].

Ltac block_side :=
  repeat (apply Forall_cons); try apply Forall_nil;
  unfold block_wf, block_fits, padding_of;
  cbn [data offset capacity set_offset];
  first [ assumption | lia | Z.to_euclidean_division_equations; lia ].

Ltac alloc_commit pre b post :=
  match goal with
  | |- context [arena_alloc_raw ?f ?ar ?n ?a ?m] =>
      rewrite (arena_alloc_raw_commits f ar pre b post n a m eq_refl)
        by block_side
  end.

(** X12. [test_arena] of [test.c] passes on every C library whose
    [malloc] serves its four requests (two block records, a buffer of 200
    bytes and one of 4) with real memory aligned to 4: no step is
    undefined, every store goes to bytes the arena has handed out, all
    seven predicates hold, the output is the header and the PASS line
    with 7/7, and the value returned is 0.  The second [int] still fits
    the first block, the third makes the arena grow by a block of 4
    bytes, and after the reset the 30 [int]s land in the older block. *)
Theorem test_arena_passes {Mem : Type} (malloc : Z -> Mem -> Z * Mem)
    (free : Z -> Mem -> Mem) (serves : nat -> Mem -> Prop) (fuel : nat) (m0 : Mem) :
  (forall k n m,
     serves (S k) m -> 0 < n <= 200 ->
     0 < fst (malloc n m) /\ fst (malloc n m) + n < word_modulus
     /\ fst (malloc n m) mod 4 = 0 /\ serves k (snd (malloc n m))) ->
  serves 4%nat m0 ->
  exists m, test_c.test_arena malloc free (S fuel) m0 = Ok (0, test_passed, m).
Proof.
  intros Hserve H4.
  unfold test_c.test_arena, Test_Begin, tu_displayHeader. cbn [app title].
  unfold arena_create, arena_block_create. cbn [mem_alloc mem_free head set_head].
  unfold arena_default_mem_alloc.
  destruct (Hserve _ sizeof_ArenaBlock m0 H4 ltac:(unfold sizeof_ArenaBlock; lia))
    as (Hr1 & _ & _ & H3).
  destruct (malloc sizeof_ArenaBlock m0) as [r1 m1]. cbn [fst snd] in Hr1, H3.
  destruct (Z.eqb_spec r1 NULL) as [E|_]; [unfold NULL in E; lia|].
  destruct (Hserve _ 200 m1 H3 ltac:(lia)) as (Hd1 & Hd1u & Hd1a & H2).
  destruct (malloc 200 m1) as [d1 m2]. cbn [fst snd] in Hd1, Hd1u, Hd1a, H2.
  destruct (Z.eqb_spec d1 NULL) as [E|_]; [unfold NULL in E; lia|].
  cbn [mem_alloc mem_free head set_head].
  change (int_of 40) with (Ok 40). cbn [bind].
  change (int_of (40 + 9)) with (Ok 49). cbn [bind].
  unfold arena_alloc. change (wrap (sizeof_int * wrap 49)) with 196.
  change alignof_int with 4. change sizeof_int with 4.
  alloc_commit (@nil ArenaBlock)
    {| addr := r1; data := d1; offset := 0; capacity := 200 |} (@nil ArenaBlock).
  cbn [bind app]. unfold set_offset. cbn [data offset capacity addr].
  rewrite !Z.add_0_r, Z.add_0_l.
  tp_step.
  destruct (Z.eqb_spec d1 NULL) as [E|Hd1n]; [unfold NULL in E; lia|].
  cbn [negb bind].
  rewrite (store_int_ok _ d1 (49 - 1)
             {| addr := r1; data := d1; offset := 196; capacity := 200 |})
    by (try assumption; try (now left); unfold sizeof_int;
        cbn [data offset]; lia).
  cbn [bind].
  alloc_commit (@nil ArenaBlock)
    {| addr := r1; data := d1; offset := 196; capacity := 200 |} (@nil ArenaBlock).
  cbn [bind app]. unfold set_offset. cbn [data offset capacity addr].
  change (196 + 4) with 200.
  tp_step.
  destruct (Z.eqb_spec (d1 + 196) NULL) as [E|Hn0]; [unfold NULL in E; lia|].
  cbn [negb bind].
  rewrite (store_int_ok _ (d1 + 196) 0
             {| addr := r1; data := d1; offset := 200; capacity := 200 |})
    by (try assumption; try (now left); unfold sizeof_int;
        cbn [data offset]; lia).
  cbn [bind].
  rewrite arena_alloc_raw_eq. change (4 =? 0) with false. cbv iota.
  cbn [head set_head].
  rewrite arena_alloc_search_rejects;
    [|lia|lia|unfold word_modulus, word_bits; cbn; lia
     |repeat constructor; cbn [data offset capacity]; lia
     |repeat constructor; unfold block_fits, padding_of; cbn [data offset capacity];
      Z.to_euclidean_division_equations; lia].
  cbn [bind]. change (negb (NULL =? NULL)) with false. cbv iota.
  change (align_forward_size 4 4) with (Ok 4). cbn [bind].
  replace (arena_grow_capacity 4) with (Ok 4) by (vm_compute; reflexivity).
  cbn [bind].
  unfold arena_push_block, arena_block_create.
  cbn [mem_alloc mem_free head set_head].
  destruct (Hserve _ sizeof_ArenaBlock m2 H2 ltac:(unfold sizeof_ArenaBlock; lia))
    as (Hr2 & _ & _ & H1).
  destruct (malloc sizeof_ArenaBlock m2) as [r2 m3]. cbn [fst snd] in Hr2, H1.
  destruct (Z.eqb_spec r2 NULL) as [E|_]; [unfold NULL in E; lia|].
  destruct (Hserve _ 4 m3 H1 ltac:(lia)) as (Hd2 & Hd2u & Hd2a & H0).
  destruct (malloc 4 m3) as [d2 m4]. cbn [fst snd] in Hd2, Hd2u, Hd2a, H0.
  destruct (Z.eqb_spec d2 NULL) as [E|_]; [unfold NULL in E; lia|].
  cbn [mem_alloc mem_free head set_head].
  alloc_commit (@nil ArenaBlock)
    {| addr := r2; data := d2; offset := 0; capacity := 4 |}
    [{| addr := r1; data := d1; offset := 200; capacity := 200 |}].
  cbn [bind app]. unfold set_offset. cbn [data offset capacity addr].
  rewrite Z.add_0_r, Z.add_0_l.
  tp_step.
  destruct (Z.eqb_spec d2 NULL) as [E|Hd2n]; [unfold NULL in E; lia|].
  cbn [negb bind].
  rewrite (store_int_ok _ d2 0
             {| addr := r2; data := d2; offset := 4; capacity := 4 |})
    by (try assumption; try (now left); unfold sizeof_int;
        cbn [data offset]; lia).
  cbn [bind].
  tp_step.
  unfold arena_block_count at 1. cbn [head set_head arena_block_count_from].
  change (wadd (wadd 0 1) 1 =? 2) with true. cbn [negb bind].
  unfold arena_reset, head_offset.
  cbn [head set_head arena_reset_from bind]. unfold set_offset.
  cbn [data offset capacity addr head set_head bind].
  tp_step. change (0 =? 0) with true. cbn [negb bind].
  change (wrap (4 * 30)) with 120.
  alloc_commit [{| addr := r2; data := d2; offset := 0; capacity := 4 |}]
    {| addr := r1; data := d1; offset := 0; capacity := 200 |}
    (@nil ArenaBlock).
  cbn [bind app]. unfold set_offset. cbn [data offset capacity addr].
  rewrite Z.add_0_r, Z.add_0_l.
  tp_step.
  destruct (Z.eqb_spec d1 NULL) as [E|_]; [contradiction|].
  cbn [negb bind].
  tp_step.
  unfold arena_block_count at 1. cbn [head set_head arena_block_count_from].
  change (wadd (wadd 0 1) 1 =? 2) with true. cbn [negb bind].
  rewrite (store_int_ok _ d1 0
             {| addr := r1; data := d1; offset := 120; capacity := 200 |})
    by (try assumption; try (now right; left); unfold sizeof_int;
        cbn [data offset]; lia).
  cbn [bind].
  unfold arena_destroy. cbn [head set_head bind].
  unfold Test_End, tu_displayResults. cbn [tests_count error_count].
  eexists. reflexivity.
Qed.

Lemma pool_malloc_serves (k : nat) (n : Z) (m : Pool) :
  pool_serves (S k) m -> 0 < n <= 200 ->
  0 < fst (pool_malloc n m) /\ fst (pool_malloc n m) + n < word_modulus
  /\ fst (pool_malloc n m) mod 4 = 0 /\ pool_serves k (snd (pool_malloc n m)).
Proof.
  unfold pool_serves, pool_malloc, pool_alloc. intros (Ha & Hp & Hr & Hl) Hn.
  rewrite Nat2Z.inj_succ in Hr.
  change word_modulus with 18446744073709551616 in *.
  destruct (Z.leb_spec (pool_next m + n) (pool_limit m)) as [_|Hlt]; [|lia].
  cbn [fst snd pool_next pool_limit].
  rewrite Z.max_l by lia.
  repeat split; try lia.
  - Z.to_euclidean_division_equations; lia.
  - rewrite Z.mul_comm. apply Z_mod_mult.
  - Z.to_euclidean_division_equations; lia.
  - Z.to_euclidean_division_equations; lia.
Qed.

Lemma test_arena_passes_witness :
  exists m, test_c.test_arena pool_malloc pool_free_ 1 pool0 = Ok (0, test_passed, m).
Proof.
  apply (test_arena_passes pool_malloc pool_free_ pool_serves 0 pool0).
  - exact pool_malloc_serves.
  - unfold pool_serves, pool0. cbn [pool_next pool_limit].
    change word_modulus with 18446744073709551616. repeat split; lia.
Defined.

(** X13. When [malloc] returns [NULL] for every request, [test_arena] of
    [test.c] runs into undefined behaviour: [arena_create] leaves [head]
    null, the first allocation returns [NULL] and the test, after counting
    the failed predicate, stores through that pointer. *)
Theorem test_arena_null_store {Mem : Type} (malloc : Z -> Mem -> Z * Mem)
    (free : Z -> Mem -> Mem) (fuel : nat) (m0 : Mem) :
  (forall n m, fst (malloc n m) = NULL) ->
  test_c.test_arena malloc free fuel m0 = Undefined.
Proof.
  intros Hfail.
  unfold test_c.test_arena, Test_Begin, tu_displayHeader. cbn [app title].
  unfold arena_create, arena_block_create. cbn [mem_alloc mem_free head set_head].
  unfold arena_default_mem_alloc.
  pose proof (Hfail sizeof_ArenaBlock m0) as E1.
  destruct (malloc sizeof_ArenaBlock m0) as [r1 m1]. cbn [fst] in E1. subst r1.
  change (NULL =? NULL) with true. cbv iota. cbn [mem_alloc mem_free head set_head].
  change (int_of 40) with (Ok 40). cbn [bind].
  change (int_of (40 + 9)) with (Ok 49). cbn [bind].
  unfold arena_alloc. change (wrap (sizeof_int * wrap 49)) with 196.
  rewrite arena_alloc_raw_eq. change (196 =? 0) with false. cbv iota.
  cbn [head set_head arena_alloc_search bind].
  change (negb (NULL =? NULL)) with false. cbv iota.
  change (align_forward_size 196 alignof_int) with (Ok 196). cbn [bind].
  replace (arena_grow_capacity 196) with (Ok 225) by (vm_compute; reflexivity).
  cbn [bind].
  unfold arena_push_block, arena_block_create.
  cbn [mem_alloc mem_free head set_head].
  pose proof (Hfail sizeof_ArenaBlock m1) as E2.
  destruct (malloc sizeof_ArenaBlock m1) as [r2 m2]. cbn [fst] in E2. subst r2.
  change (NULL =? NULL) with true. cbv iota. cbn [bind].
  change (negb (NULL =? NULL)) with false.
  unfold Tp at 1, tu_assert at 1. cbn [tests_count error_count title].
  change (int_of (0 + 1)) with (Ok 1). cbn [bind negb].
  reflexivity.
Qed.

Lemma test_arena_null_store_witness :
  test_c.test_arena (fun _ (m : unit) => (NULL, m)) (fun _ m => m) 1 tt = Undefined.
Proof.
  apply (test_arena_null_store (fun _ (m : unit) => (NULL, m)) (fun _ m => m) 1 tt).
  intros n m. reflexivity.
Defined.
